(** * logkeeper: break_up_large_documents.py

    A shallow embedding of the migration script that splits log documents
    larger than 4 MB, together with the properties its specification
    states about it.

    The script talks to three MongoDB collections ([builds], [tests],
    [logs]).  Each collection is a finite map from [_id] to a document;
    the documents are records holding exactly the fields the script reads
    or writes.  Python integers are unbounded, so [seq] values and sizes
    are in [Z]. *)

From Stdlib Require Import ZArith Ascii String.
From stdpp Require Import gmap strings list fin_maps sorting list_numbers pretty.

Open Scope Z_scope.

(** ** Values *)

(** [datetime.datetime(year, month, day, hour, minute, second, microsecond)]. *)
Record datetime := mk_datetime {
  year : Z; month : Z; day : Z;
  hour : Z; minute : Z; second : Z; microsecond : Z
}.

(** A Python [str].  The script only ever takes [len] of a payload and the
    self-test only its first character, while the fixture builds payloads
    of three million characters with ["1" * line_size]; a string is
    therefore kept as a list of runs [(c, n)], the run standing for
    [c * n].  As in Python, a run with [n <= 0] is empty. *)
Definition pystr := list (ascii * Z).

Definition len (s : pystr) : Z :=
  foldr (λ run acc, Z.max 0 run.2 + acc) 0 s.

(** [s[0]], [None] standing for the IndexError on an empty string. *)
Fixpoint first_char (s : pystr) : option ascii :=
  match s with
  | [] => None
  | (c, n) :: s' => if bool_decide (0 < n) then Some c else first_char s'
  end.

(** [c * n] *)
Definition str_mul (c : ascii) (n : Z) : pystr := [(c, n)].

(** A line is the two-element list [[timestamp, payload]]; the script reads
    [line[1]]. *)
Record Line := mk_line { line_time : datetime; line_text : pystr }.

(** ** Documents *)

(** An [ObjectId]. *)
Abbreviation oid := N.

Record Build := mk_build { b_name : string; b_seq : Z }.

Record Test := mk_test { t_name : string; t_build_id : oid; t_seq : Z }.

(** A document of [logs].  [test_id] is [None] when the document has no
    ["test_id"] key, which is how the script and its fixture tell a log of
    a build from a log of a test. *)
Record Log := mk_log {
  build_id : oid;
  test_id : option oid;
  seq : Z;
  started : datetime;
  lines : list Line
}.

Record DB := mk_db {
  builds : gmap oid Build;
  tests : gmap oid Test;
  logs : gmap oid Log
}.

Global Instance datetime_eq_dec : EqDecision datetime.
Proof. solve_decision. Defined.
Global Instance Line_eq_dec : EqDecision Line.
Proof. solve_decision. Defined.
Global Instance Log_eq_dec : EqDecision Log.
Proof. solve_decision. Defined.

(** ** The store operations the script uses *)

Module Store.

(** Modelled from the spec: the id generator of the store (pymongo's
    ObjectId) is not part of the script.  Identities are immutable and
    a new document gets an identity larger than every one present in
    its collection. *)
Definition next_id {A} (m : gmap oid A) : oid :=
  N.succ (foldr N.max 0%N (map_to_list m).*1).

(** [coll.insert_one(doc)] *)
Definition insert_one {A} (doc : A) (m : gmap oid A) : gmap oid A :=
  <[next_id m := doc]> m.

(** [coll.insert_many(docs)]: the documents are inserted in list order. *)
Definition insert_many {A} (docs : list A) (m : gmap oid A) : gmap oid A :=
  foldl (λ m doc, insert_one doc m) m docs.

(** [coll.delete_one({"_id": id})] *)
Definition delete_one {A} (id : oid) (m : gmap oid A) : gmap oid A :=
  delete id m.

(** Modelled from the spec: the ordered full scan
    [logs.find().sort("_id", pymongo.ASCENDING)] is served by the store.
    It yields the identities present when the scan starts, in ascending
    order; documents inserted while the scan runs are not yielded. *)
Definition find_sorted_ids {A} (m : gmap oid A) : list oid :=
  merge_sort N.le (map_to_list m).*1.

End Store.

(** ** Size evaluation (lines 134-139) *)

Definition max_size : Z := 4 * 1024 * 1024.

(** [size = 0; for line in log["lines"]: size += len(line[1])] *)
Definition log_size (log : Log) : Z :=
  foldl (λ size line, size + len (line_text line)) 0 (lines log).

(** ** The splitter (lines 147-175) *)

(** The dictionary literal of lines 150-155 and 164-169: a log without
    lines that inherits [build_id], [started] and, when present,
    [test_id]. *)
Definition fresh_log (log : Log) (seq : Z) : Log :=
  {| build_id := build_id log; test_id := test_id log; seq := seq;
     started := started log; lines := [] |}.

(** [new_log["lines"].append(line)] *)
Definition append_line (l : Log) (line : Line) : Log :=
  {| build_id := build_id l; test_id := test_id l; seq := seq l;
     started := started l; lines := lines l ++ [line] |}.

(** The variables of the splitting loop.  In the script [new_log] is the
    very dictionary that sits last in [new_logs], so appending a line to
    it changes the list too; here [st_closed] holds the elements of
    [new_logs] before the last one, and [st_new_log] the last one. *)
Record split_state := mk_split {
  st_seq : Z;
  st_closed : list Log;
  st_new_log : Log;
  st_new_log_size : Z
}.

(** The list [new_logs] of the script. *)
Definition new_logs_of (st : split_state) : list Log :=
  st_closed st ++ [st_new_log st].

Definition split_init (log : Log) : split_state :=
  {| st_seq := seq log; st_closed := [];
     st_new_log := fresh_log log (seq log); st_new_log_size := 0 |}.

(** Lines 162-171: the test that opens a new log. *)
Definition opens_new_log (st : split_state) (line : Line) : bool :=
  bool_decide (st_new_log_size st + len (line_text line) > max_size).

Definition open_new_log (log : Log) (st : split_state) : split_state :=
  {| st_seq := st_seq st + 1;
     st_closed := st_closed st ++ [st_new_log st];
     st_new_log := fresh_log log (st_seq st + 1);
     st_new_log_size := 0 |}.

(** One iteration of [for line in log["lines"]] (lines 160-175). *)
Definition split_line (log : Log) (st : split_state) (line : Line) : split_state :=
  let st1 := if opens_new_log st line then open_new_log log st else st in
  {| st_seq := st_seq st1;
     st_closed := st_closed st1;
     st_new_log := append_line (st_new_log st1) line;
     st_new_log_size := st_new_log_size st1 + len (line_text line) |}.

Definition split_log (log : Log) : split_state :=
  foldl (split_line log) (split_init log) (lines log).

Definition new_logs (log : Log) : list Log := new_logs_of (split_log log).

(** ** Renumbering and persistence (lines 177-194) *)

Definition set_seq (l : Log) (s : Z) : Log :=
  {| build_id := build_id l; test_id := test_id l; seq := s;
     started := started l; lines := lines l |}.

(** The filter of [update_many] (lines 180-183).  A query for
    ["test_id": None] matches the documents without that key. *)
Definition later_sibling (log : Log) (l : Log) : bool :=
  bool_decide (build_id l = build_id log) &&
  bool_decide (test_id l = test_id log) &&
  bool_decide (seq l > seq log).

(** [logs.update_many(filter, {"$inc": {"seq": inc}})] *)
Definition shift_log (log : Log) (inc : Z) (l : Log) : Log :=
  if later_sibling log l then set_seq l (seq l + inc) else l.

Definition inc_test (inc : Z) (t : Test) : Test :=
  {| t_name := t_name t; t_build_id := t_build_id t; t_seq := t_seq t + inc |}.

Definition inc_build (inc : Z) (b : Build) : Build :=
  {| b_name := b_name b; b_seq := b_seq b + inc |}.

(** The body of the scan loop for the document [log] read under [id]
    (lines 134-194). *)
Definition process_log (db : DB) (id : oid) (log : Log) : DB :=
  if bool_decide (log_size log ≤ max_size) then db
  else
    let st := split_log log in
    let inc := st_seq st - seq log in
    let logs1 := shift_log log inc <$> logs db in
    let tests1 :=
      match test_id log with
      | Some t => alter (inc_test inc) t (tests db)
      | None => tests db
      end in
    let builds1 :=
      match test_id log with
      | Some _ => builds db
      | None => alter (inc_build inc) (build_id log) (builds db)
      end in
    let logs2 := Store.insert_many (new_logs_of st) logs1 in
    let logs3 := Store.delete_one id logs2 in
    {| builds := builds1; tests := tests1; logs := logs3 |}.

(** ** The driver (lines 124-132) *)

(** One turn of the scan.  The loop works on the dictionary the cursor
    hands over (line 129) and never reads the document again.  The
    dictionary is a copy: [snap] holds the copies, the logs as they were
    when the scan started (the scan of [Store.find_sorted_ids]), and what
    the turn writes goes to the store [db] of the moment.  After an
    earlier split in the same scope the copy carries an outdated
    [seq]. *)
Definition visit (snap : gmap oid Log) (db : DB) (id : oid) : DB :=
  match snap !! id with
  | Some log => process_log db id log
  | None => db
  end.

(** The turns for [ids], on the copies of [snap]. *)
Definition scan (snap : gmap oid Log) (db : DB) (ids : list oid) : DB :=
  foldl (visit snap) db ids.

(** The scan of [ids] that starts on the store [db]. *)
Definition run_scan (db : DB) (ids : list oid) : DB := scan (logs db) db ids.

Definition break_up_large_documents (db : DB) : DB :=
  run_scan db (Store.find_sorted_ids (logs db)).

(** ** The self-test fixture (lines 24-73) *)

Module Fixture.

Definition line_size : Z := 3 * 1024 * 1024.

Definition dates : list datetime :=
  [ mk_datetime 2015 1 1 0 0 0 0;
    mk_datetime 2015 2 1 0 0 0 0;
    mk_datetime 2015 2 1 0 0 0 0;
    mk_datetime 2015 3 1 0 0 0 0 ].

Definition date (i : nat) : datetime :=
  default (mk_datetime 0 0 0 0 0 0 0) (dates !! i).

Section with_clock.
(** [utcnow k] is what the [k]-th call of [datetime.datetime.utcnow()]
    returns. *)
Variable utcnow : nat → datetime.

Definition one_line (k : nat) (c : ascii) : Line :=
  mk_line (utcnow k) (str_mul c line_size).

(** The three logs of one owner, lines 32-48 and 54-73. *)
Definition three_logs (b : oid) (t : option oid) (k : nat) : list Log :=
  [ mk_log b t 1 (date 0) [one_line k "1"];
    mk_log b t 2 (date 1) [one_line (k + 1) "2"; one_line (k + 2) "3"];
    mk_log b t 3 (date 3) [one_line (k + 3) "4"] ].

Definition global_build_id : oid := Store.next_id (∅ : gmap oid Build).

Definition builds0 : gmap oid Build :=
  Store.insert_one (mk_build "build" 0)
    (Store.insert_one (mk_build "global_build" 3) ∅).

Definition plain_build_id : oid :=
  Store.next_id (Store.insert_one (mk_build "global_build" 3) ∅).

Definition test_doc_id : oid := Store.next_id (∅ : gmap oid Test).

Definition tests0 : gmap oid Test :=
  Store.insert_one (mk_test "test" plain_build_id 3) ∅.

Definition logs0 : gmap oid Log :=
  foldl (λ m l, Store.insert_one l m) ∅
    (three_logs global_build_id None 0 ++
     three_logs plain_build_id (Some test_doc_id) 4).

Definition db0 : DB := mk_db builds0 tests0 logs0.
End with_clock.

(** A clock for running the fixture: the [k]-th call of [utcnow] falls
    [k] seconds after midnight of 2015-04-01. *)
Definition clock (k : nat) : datetime :=
  mk_datetime 2015 4 1 0 0 (Z.of_nat k) 0.

End Fixture.

(** ** Sample stores for the edge cases *)

Module Samples.

Definition noon : datetime := mk_datetime 2015 6 1 12 0 0 0.

(** A line of 5 MB, larger than [max_size] on its own. *)
Definition big_line : Line := mk_line noon (str_mul "x" (5 * 1024 * 1024)).

(** A line of 3 MB. *)
Definition line3 (c : ascii) : Line :=
  mk_line noon (str_mul c (3 * 1024 * 1024)).

(** A log of build 1 whose only line is [big_line]. *)
Definition big_log : Log := mk_log 1%N None 1 noon [big_line].

(** A log of build 1 with two lines of 3 MB. *)
Definition double_log : Log :=
  mk_log 1%N None 1 noon [line3 "a"; line3 "b"].

(** A log of build 1 with one line of 3 MB. *)
Definition small_log (s : Z) : Log := mk_log 1%N None s noon [line3 "c"].

Definition one_build (n : Z) : gmap oid Build :=
  Store.insert_one (mk_build "b" n) ∅.

(** Build 1 with the single log [big_log]. *)
Definition big_db : DB :=
  mk_db (one_build 1) ∅ (Store.insert_one big_log ∅).

(** Build 1 with [double_log] at [seq] 1 and a small log at [seq] 2. *)
Definition double_db : DB :=
  mk_db (one_build 2) ∅
    (Store.insert_many [double_log; small_log 2] ∅).

End Samples.

(** * Vocabulary of the specification *)

(** ** The splitter *)

Definition lines_size (ls : list Line) : Z :=
  foldr (λ line acc, len (line_text line) + acc) 0 ls.

(** The state of the loop after the lines [ls] have been handled. *)
Definition split_lines (log : Log) (ls : list Line) : split_state :=
  foldl (split_line log) (split_init log) ls.

(** What a replacement log may look like: within the bound, or a single
    line that is itself too large. *)
Definition within_bound (c : Log) : Prop :=
  log_size c ≤ max_size ∨
  ∃ l, lines c = [l] ∧ len (line_text l) > max_size.

Definition inherits (log c : Log) : Prop :=
  build_id c = build_id log ∧ test_id c = test_id log ∧
  started c = started log.

(** Everything the loop maintains, in one record so that a single
    induction over the handled lines establishes it. *)
Record split_inv (log : Log) (ls : list Line) (st : split_state) : Prop := {
  inv_size : st_new_log_size st = log_size (st_new_log st);
  inv_seq : st_seq st = seq log + Z.of_nat (length (st_closed st));
  inv_seqs :
    seq <$> new_logs_of st =
    seqZ (seq log) (Z.of_nat (length (new_logs_of st)));
  inv_concat : concat (lines <$> new_logs_of st) = ls;
  inv_bound : Forall within_bound (new_logs_of st);
  inv_tail : Forall (λ c, lines c ≠ []) (tail (new_logs_of st));
  inv_inherits : Forall (inherits log) (new_logs_of st)
}.

(** [inc] of line 178 for the log [log]. *)
Definition split_inc (log : Log) : Z := st_seq (split_log log) - seq log.

(** What [update_many] does to the [seq] of a log of the same scope. *)
Definition renumber (s inc k : Z) : Z :=
  if bool_decide (k > s) then k + inc else k.

(** ** Owner scopes (section 3 of the specification) *)

(** Owner scope = (build id, test id or its absence). *)
Definition scope : Type := oid * option oid.

Definition scope_of (l : Log) : scope := (build_id l, test_id l).

(** The documents of [logs], as a bag. *)
Definition all_logs (db : DB) : list Log := (map_to_list (logs db)).*2.

Definition scope_logs (db : DB) (sc : scope) : list Log :=
  filter (λ l, scope_of l = sc) (all_logs db).

(** The logs of a scope other than the one stored under [id]. *)
Definition siblings (db : DB) (id : oid) (sc : scope) : list Log :=
  filter (λ l, scope_of l = sc) (map_to_list (delete id (logs db))).*2.

(** The counter of the owner of a scope: [Build.seq] for the logs of a
    build, [Test.seq] for the logs of a test of that build.  A test is the
    child of exactly one build, so a scope that pairs a test with another
    build has no owner. *)
Definition owner_counter (db : DB) (sc : scope) : option Z :=
  match sc.2 with
  | None => b_seq <$> builds db !! sc.1
  | Some t =>
      match tests db !! t with
      | Some T =>
          if decide (t_build_id T = sc.1) then Some (t_seq T) else None
      | None => None
      end
  end.

(** Invariant 1: the [seq] values of a scope are exactly [1 .. N], with
    [N] the counter of its owner, no gaps and no duplicates.  A scope
    without an owner holds no log. *)
Definition contiguous (db : DB) (sc : scope) : Prop :=
  match owner_counter db sc with
  | Some n => 0 ≤ n ∧ seq <$> scope_logs db sc ≡ₚ seqZ 1 n
  | None => scope_logs db sc = []
  end.

(** The part of invariant 1 that gives "in [seq] order" a meaning: no two
    logs of a scope share a [seq]. *)
Definition distinct_seqs (db : DB) (sc : scope) : Prop :=
  NoDup (seq <$> scope_logs db sc).

Global Instance contiguous_dec db sc : Decision (contiguous db sc).
Proof. unfold contiguous. destruct (owner_counter db sc); apply _. Defined.

(** The scopes a store knows of: those of its logs and those of its
    builds and tests.  Every other scope has neither logs nor an owner. *)
Definition known_scopes (db : DB) : list scope :=
  (scope_of <$> all_logs db) ++
  ((λ b, (b.1, None)) <$> map_to_list (builds db)) ++
  ((λ t, (t_build_id t.2, Some t.1)) <$> map_to_list (tests db)).

(** The logs of a scope in [seq] order, and their lines end to end. *)
Definition seq_le : relation Log := λ a b, seq a ≤ seq b.

Global Instance seq_le_dec a b : Decision (seq_le a b).
Proof. unfold seq_le. apply _. Defined.

Definition scope_logs_sorted (db : DB) (sc : scope) : list Log :=
  merge_sort seq_le (scope_logs db sc).

Definition scope_lines (db : DB) (sc : scope) : list Line :=
  concat (lines <$> scope_logs_sorted db sc).

(** ** The checks of the self-test (lines 75-120) *)

Module SelfTest.
Import Fixture.

(** ["Global log "] or ["Log "], the prefix of a message. *)
Inductive subject := GlobalLog | PlainLog.

(** What [test()] prints; [Raised] stands for an exception (a document
    that is not found, an index out of range). *)
Inductive output :=
| GlobalBuildWrongSeq
| BuildWrongSeq
| TestWrongSeq
| WrongSeq (who : subject) (n actual : Z)
| WrongStarted (who : subject) (n : Z) (actual : datetime)
| WrongNumberOfLines (who : subject) (n : Z) (actual : nat)
| WrongFirstChar (who : subject) (n : Z) (actual : ascii)
| AllTestsPassed
| Raised.

(** The body of the two [for log in ... .sort("seq", ASCENDING)] loops;
    [n] is the variable [seq] of the test.  [None] means that the loop
    ended without a complaint. *)
Fixpoint check_logs (who : subject) (found : list Log) (n : Z)
  : option output :=
  match found with
  | [] => None
  | log :: found' =>
      if bool_decide (seq log ≠ n) then Some (WrongSeq who n (seq log))
      else
        match dates !! Z.to_nat (n - 1) with
        | None => Some Raised
        | Some d =>
            if bool_decide (started log ≠ d)
            then Some (WrongStarted who n (started log))
            else if bool_decide (length (lines log) ≠ 1%nat)
            then Some (WrongNumberOfLines who n (length (lines log)))
            else
              match first_char <$> (line_text <$> head (lines log)) with
              | Some (Some c) =>
                  if bool_decide (String c EmptyString ≠ pretty n)
                  then Some (WrongFirstChar who n c)
                  else check_logs who found' (n + 1)
              | _ => Some Raised
              end
        end
  end.

Definition check (db : DB) : output :=
  match builds db !! global_build_id with
  | None => Raised
  | Some gb =>
      if bool_decide (b_seq gb ≠ 4) then GlobalBuildWrongSeq
      else
        match check_logs GlobalLog
                (scope_logs_sorted db (global_build_id, None)) 1 with
        | Some out => out
        | None =>
            match builds db !! plain_build_id with
            | None => Raised
            | Some b =>
                if bool_decide (b_seq b ≠ 0) then BuildWrongSeq
                else
                  match tests db !! test_doc_id with
                  | None => Raised
                  | Some t =>
                      if bool_decide (t_seq t ≠ 4) then TestWrongSeq
                      else
                        match check_logs PlainLog
                                (scope_logs_sorted db
                                   (plain_build_id, Some test_doc_id)) 1 with
                        | Some out => out
                        | None => AllTestsPassed
                        end
                  end
            end
        end
  end.

(** [test()], for the clock [utcnow]. *)
Definition test (utcnow : nat → datetime) : output :=
  check (break_up_large_documents (db0 utcnow)).

End SelfTest.

(** No line of the store is larger than [max_size] on its own. *)
Definition lines_fit (db : DB) : Prop :=
  ∀ id log l,
    logs db !! id = Some log → l ∈ lines log →
    len (line_text l) ≤ max_size.

(** Every log of the store is within [max_size]. *)
Definition all_compliant (db : DB) : Prop :=
  ∀ id log, logs db !! id = Some log → log_size log ≤ max_size.

(** The states of the store during the turns for [ids] on the copies of
    [snap]: before the first turn and after each one. *)
Fixpoint states (snap : gmap oid Log) (db : DB) (ids : list oid)
  : list DB :=
  db :: match ids with
        | [] => []
        | id :: ids' => states snap (visit snap db id) ids'
        end.

(** The states of the store during the scan of [ids] that starts on
    [db]. *)
Definition scan_states (db : DB) (ids : list oid) : list DB :=
  states (logs db) db ids.

(** ** What the scan prints (lines 130-131 and 141-145) *)

(** One constructor for each [print] statement of the scan. *)
Inductive message :=
| Checked (i : Z) (id : oid)
| BreakingUpLog
| PrintedId (id : oid)
| PrintedBuildId (b : oid)
| PrintedTestId (t : oid).

(** Lines 141-145: what is printed when the log [log] read under [id] is
    found to be too large. *)
Definition report (id : oid) (log : Log) : list message :=
  [BreakingUpLog; PrintedId id; PrintedBuildId (build_id log)] ++
  match test_id log with
  | Some t => [PrintedTestId t]
  | None => []
  end.

(** What one turn of the loop prints: [i] is the counter of line 127
    before line 132 increments it, [log] the document handed over under
    [id]. *)
Definition turn_output (i : Z) (id : oid) (log : Log) : list message :=
  (if bool_decide (i mod 10000 = 0) && bool_decide (i > 0)
   then [Checked i id] else []) ++
  (if bool_decide (log_size log ≤ max_size) then [] else report id log).

(** The output of the turns for [ids]: what is printed depends on the
    copies the cursor hands over only, not on the store of the moment. *)
Fixpoint scan_output (snap : gmap oid Log) (i : Z) (ids : list oid)
  : list message :=
  match ids with
  | [] => []
  | id :: ids' =>
      match snap !! id with
      | Some log => turn_output i id log ++ scan_output snap (i + 1) ids'
      | None => scan_output snap i ids'
      end
  end.

(** Everything [break_up_large_documents] prints. *)
Definition printed (db : DB) : list message :=
  scan_output (logs db) 0 (Store.find_sorted_ids (logs db)).

(** The progress messages of line 131 among the output, and the rest. *)
Definition is_progress (m : message) : bool :=
  match m with Checked _ _ => true | _ => false end.

Definition reports (out : list message) : list message :=
  filter (λ m, is_progress m = false) out.

(** ** More vocabulary *)

(** The size of the log stored under [j], 0 if there is none. *)
Definition size_at (db : DB) (j : oid) : Z :=
  from_option log_size 0 (logs db !! j).

(** The logs that carry the test id [t], whatever their build id: the
    logs [tests.update_one] of line 187 counts for that test. *)
Definition logs_of_test (db : DB) (t : oid) : list Log :=
  filter (λ l, test_id l = Some t) (all_logs db).

(** [c'] is the log [c] up to its [seq], which has not gone down. *)
Definition renumbered (c c' : Log) : Prop :=
  build_id c' = build_id c ∧ test_id c' = test_id c ∧
  started c' = started c ∧ lines c' = lines c ∧ seq c ≤ seq c'.

(** Of two neighbouring replacements, the first line of the later one did
    not fit into the earlier one. *)
Definition tight (c1 c2 : Log) : Prop :=
  ∃ line rest,
    lines c2 = line :: rest ∧
    log_size c1 + len (line_text line) > max_size.

(** What the loops of the self-test want of the log they meet when their
    variable [seq] is [n]. *)
Definition accepted_at (n : Z) (log : Log) : Prop :=
  seq log = n ∧
  Fixture.dates !! Z.to_nat (n - 1) = Some (started log) ∧
  ∃ l c, lines log = [l] ∧ first_char (line_text l) = Some c ∧
         String c EmptyString = pretty n.

(** The store without its logs. *)
Definition without_logs (db : DB) : DB := mk_db (builds db) (tests db) ∅.

(** The copies [snap] holds under the identities [ids] are those of logs
    the store [db] still holds, up to a [seq] that has gone up since the
    copy was taken. *)
Definition current (snap : gmap oid Log) (db : DB) (ids : list oid) : Prop :=
  ∀ i log, i ∈ ids → snap !! i = Some log →
    ∃ cur, logs db !! i = Some cur ∧ renumbered log cur.

(** No scope holds two logs that are larger than [max_size]. *)
Definition lone_oversized (db : DB) : Prop :=
  map_Forall
    (λ i li,
       map_Forall
         (λ j lj,
            log_size li > max_size → log_size lj > max_size →
            scope_of li = scope_of lj → i = j)
         (logs db))
    (logs db).

(** More sample stores. *)
Module MoreSamples.

(** Build 1 with one small log. *)
Definition small_db : DB :=
  mk_db (Samples.one_build 1) ∅ (Store.insert_one (Samples.small_log 1) ∅).

(** A log the first loop of the self-test accepts. *)
Definition accepted_log : Log :=
  mk_log 1%N None 1 (Fixture.date 0) [Fixture.one_line Fixture.clock 0 "1"].

(** Two oversized logs of build 1: three lines of 3 MB at [seq] 1 and two
    at [seq] 2. *)
Definition abc_log : Log :=
  mk_log 1%N None 1 Samples.noon
    [Samples.line3 "a"; Samples.line3 "b"; Samples.line3 "c"].

Definition de_log : Log :=
  mk_log 1%N None 2 Samples.noon [Samples.line3 "d"; Samples.line3 "e"].

(** Build 1, its counter at 2, with [abc_log] and [de_log]. *)
Definition twin_db : DB :=
  mk_db (Samples.one_build 2) ∅ (Store.insert_many [abc_log; de_log] ∅).

End MoreSamples.

(** * Properties *)

(** ** Sizes *)

Lemma len_nonneg (s : pystr) : 0 ≤ len s.
Proof. induction s as [|[c n] s IH]; simpl; lia. Qed.

Lemma lines_size_nonneg ls : 0 ≤ lines_size ls.
Proof.
  induction ls as [|l ls IH]; simpl; [lia|].
  pose proof (len_nonneg (line_text l)). lia.
Qed.

Lemma lines_size_app ls1 ls2 :
  lines_size (ls1 ++ ls2) = lines_size ls1 + lines_size ls2.
Proof. induction ls1 as [|l ls1 IH]; simpl; lia. Qed.

Lemma foldl_size_acc ls (a : Z) :
  foldl (λ size line, size + len (line_text line)) a ls = a + lines_size ls.
Proof.
  revert a. induction ls as [|l ls IH]; intros a; simpl; [lia|].
  rewrite IH. lia.
Qed.

Lemma log_size_lines log : log_size log = lines_size (lines log).
Proof. unfold log_size. rewrite foldl_size_acc. lia. Qed.

(** ** The splitting loop *)

Lemma split_lines_snoc log ls l :
  split_lines log (ls ++ [l]) = split_line log (split_lines log ls) l.
Proof. unfold split_lines. by rewrite foldl_app. Qed.

Lemma log_size_append c l :
  log_size (append_line c l) = log_size c + len (line_text l).
Proof. rewrite !log_size_lines. simpl. rewrite lines_size_app. simpl. lia. Qed.

Lemma tail_snoc {A} (l : list A) (x : A) :
  l ≠ [] → tail (l ++ [x]) = tail l ++ [x].
Proof. by destruct l. Qed.

Lemma split_init_inv log : split_inv log [] (split_init log).
Proof.
  split; simpl; try done.
  - lia.
  - apply Forall_singleton. left. unfold log_size, max_size. simpl. lia.
  - by apply Forall_singleton.
Qed.

Lemma split_line_inv log ls st l :
  split_inv log ls st → split_inv log (ls ++ [l]) (split_line log st l).
Proof.
  intros [Hsz Hseq Hseqs Hcat Hbd Htl Hinh].
  pose proof (len_nonneg (line_text l)) as Hl.
  unfold split_line, opens_new_log. case_bool_decide as Hopen.
  - (* a new log is opened and receives [l] alone *)
    split; simpl.
    + unfold log_size. simpl. lia.
    + rewrite length_app. simpl. lia.
    + unfold new_logs_of in *. simpl.
      rewrite fmap_app, Hseqs. simpl.
      rewrite (length_app (_ ++ _)). simpl.
      rewrite Nat2Z.inj_add, seqZ_app by lia. simpl.
      f_equal. rewrite length_app in *. simpl in *.
      rewrite seqZ_cons, seqZ_nil by lia. f_equal. lia.
    + unfold new_logs_of in *. simpl.
      by rewrite fmap_app, concat_app, Hcat.
    + unfold new_logs_of in *. simpl.
      apply Forall_app. split; [done|]. apply Forall_singleton.
      destruct (decide (len (line_text l) ≤ max_size)).
      * left. unfold log_size. simpl. lia.
      * right. exists l. simpl. split; [done|lia].
    + unfold new_logs_of in *. simpl.
      rewrite tail_snoc by (by destruct (st_closed st)).
      apply Forall_app. split; [done|]. by apply Forall_singleton.
    + unfold new_logs_of in *. simpl.
      apply Forall_app. split; [done|]. by apply Forall_singleton.
  - (* [l] joins the current log *)
    apply Forall_app in Hbd as [Hbd1 Hbd2].
    apply Forall_app in Hinh as [Hinh1 Hinh2].
    rewrite Forall_singleton in Hinh2.
    split; simpl.
    + rewrite log_size_append. lia.
    + done.
    + unfold new_logs_of in *. simpl.
      rewrite fmap_app in *. simpl in *. by rewrite !length_app in *.
    + unfold new_logs_of in *. simpl.
      rewrite !fmap_app, !concat_app in *. simpl in *.
      rewrite app_nil_r in *. rewrite <- Hcat. by rewrite app_assoc.
    + unfold new_logs_of. simpl.
      apply Forall_app. split; [done|]. apply Forall_singleton.
      left. rewrite log_size_append. lia.
    + unfold new_logs_of in *. simpl.
      destruct (st_closed st) as [|c cs]; simpl in *; [done|].
      apply Forall_app in Htl as [Htl1 _].
      apply Forall_app. split; [done|]. apply Forall_singleton.
      simpl. by destruct (lines (st_new_log st)).
    + unfold new_logs_of. simpl.
      apply Forall_app. split; [done|]. by apply Forall_singleton.
Qed.

Lemma split_lines_inv log ls : split_inv log ls (split_lines log ls).
Proof.
  induction ls as [|l ls IH] using rev_ind.
  - apply split_init_inv.
  - rewrite split_lines_snoc. by apply split_line_inv.
Qed.

Lemma split_log_inv log : split_inv log (lines log) (split_log log).
Proof. apply split_lines_inv. Qed.

(** ** The store *)

Module StoreFacts.
Import Store.

Section facts.
Context {A : Type}.
Implicit Types (m : gmap oid A) (docs : list A).

Lemma le_foldr_max (k : N) (ks : list N) :
  k ∈ ks → (k ≤ foldr N.max 0 ks)%N.
Proof.
  induction 1 as [k ks|k k' ks _ IH]; simpl.
  - apply N.le_max_l.
  - etrans; [exact IH|apply N.le_max_r].
Qed.

Lemma foldr_max_perm (ks1 ks2 : list N) :
  ks1 ≡ₚ ks2 → foldr N.max 0%N ks1 = foldr N.max 0%N ks2.
Proof.
  induction 1 as [|k ks1 ks2 _ IH|k1 k2 ks|ks1 ks2 ks3 _ IH1 _ IH2]; simpl.
  - done.
  - by rewrite IH.
  - rewrite !N.max_assoc. by rewrite (N.max_comm k1 k2).
  - by rewrite IH1.
Qed.

Lemma lookup_lt_next_id m j : is_Some (m !! j) → (j < next_id m)%N.
Proof.
  intros [x Hx]. unfold next_id.
  apply N.lt_succ_r, le_foldr_max.
  apply list_elem_of_fmap. exists (j, x). split; [done|].
  by apply elem_of_map_to_list.
Qed.

Lemma lookup_ge_next_id m j : (next_id m ≤ j)%N → m !! j = None.
Proof.
  intros Hj. apply eq_None_not_Some. intros Hs%lookup_lt_next_id. lia.
Qed.

Lemma next_id_insert_one m d :
  next_id (insert_one d m) = N.succ (next_id m).
Proof.
  unfold insert_one. unfold next_id at 1. f_equal.
  rewrite (foldr_max_perm _ (next_id m :: (map_to_list m).*1)).
  - cbn [foldr]. unfold next_id.
    apply N.max_l, N.le_succ_diag_r.
  - rewrite map_to_list_insert by (by apply lookup_ge_next_id). done.
Qed.

Lemma insert_many_cons d docs m :
  insert_many (d :: docs) m = insert_many docs (insert_one d m).
Proof. done. Qed.

Lemma next_id_insert_many docs m :
  next_id (insert_many docs m) = (next_id m + N.of_nat (length docs))%N.
Proof.
  revert m. induction docs as [|d docs IH]; intros m.
  - simpl. lia.
  - rewrite insert_many_cons, IH, next_id_insert_one. simpl. lia.
Qed.

(** Documents that were there keep their identity and content. *)
Lemma insert_many_lookup_lt docs m j :
  (j < next_id m)%N → insert_many docs m !! j = m !! j.
Proof.
  revert m. induction docs as [|d docs IH]; intros m Hj; [done|].
  rewrite insert_many_cons, IH.
  - unfold insert_one. rewrite lookup_insert_ne; [done|lia].
  - rewrite next_id_insert_one. lia.
Qed.

(** The [n]-th new document is stored under the [n]-th new identity. *)
Lemma insert_many_lookup_new docs m (n : nat) :
  insert_many docs m !! (next_id m + N.of_nat n)%N = docs !! n.
Proof.
  revert m n. induction docs as [|d docs IH]; intros m n.
  - simpl. apply lookup_ge_next_id. lia.
  - rewrite insert_many_cons. destruct n as [|n]; simpl.
    + rewrite insert_many_lookup_lt.
      * unfold insert_one. rewrite N.add_0_r. apply lookup_insert_eq.
      * rewrite next_id_insert_one. lia.
    + rewrite <- (IH (insert_one d m) n), next_id_insert_one.
      f_equal. lia.
Qed.

Lemma insert_many_lookup_ge docs m j :
  (next_id m ≤ j)%N →
  insert_many docs m !! j = docs !! N.to_nat (j - next_id m).
Proof.
  intros Hj. rewrite <- (insert_many_lookup_new docs m). f_equal. lia.
Qed.

(** The collection after [insert_many], as a bag of documents. *)
Lemma insert_many_values docs m :
  (map_to_list (insert_many docs m)).*2 ≡ₚ (map_to_list m).*2 ++ docs.
Proof.
  revert m. induction docs as [|d docs IH]; intros m.
  - by rewrite app_nil_r.
  - rewrite insert_many_cons, IH. unfold insert_one.
    rewrite map_to_list_insert by (apply lookup_ge_next_id; lia).
    simpl. by rewrite Permutation_middle.
Qed.
End facts.
End StoreFacts.

(** ** One oversized log *)

Lemma new_logs_length log :
  Z.of_nat (length (new_logs log)) = split_inc log + 1.
Proof.
  unfold new_logs, new_logs_of, split_inc.
  rewrite (inv_seq _ _ _ (split_log_inv log)), length_app. simpl. lia.
Qed.

Lemma split_inc_nonneg log : 0 ≤ split_inc log.
Proof.
  unfold split_inc. rewrite (inv_seq _ _ _ (split_log_inv log)). lia.
Qed.

Lemma new_logs_seqs log :
  seq <$> new_logs log = seqZ (seq log) (split_inc log + 1).
Proof.
  unfold new_logs. rewrite (inv_seqs _ _ _ (split_log_inv log)).
  by rewrite <- new_logs_length.
Qed.

Lemma new_logs_within_bound log : Forall within_bound (new_logs log).
Proof. apply (inv_bound _ _ _ (split_log_inv log)). Qed.

Lemma new_logs_tail log : Forall (λ c, lines c ≠ []) (tail (new_logs log)).
Proof. apply (inv_tail _ _ _ (split_log_inv log)). Qed.

Lemma new_logs_concat log : concat (lines <$> new_logs log) = lines log.
Proof. apply (inv_concat _ _ _ (split_log_inv log)). Qed.

Lemma new_logs_inherit log c : c ∈ new_logs log → inherits log c.
Proof.
  revert c. apply Forall_forall, (inv_inherits _ _ _ (split_log_inv log)).
Qed.

Lemma new_logs_scope log c : c ∈ new_logs log → scope_of c = scope_of log.
Proof.
  intros (Hb & Ht & _)%new_logs_inherit. unfold scope_of. by rewrite Hb, Ht.
Qed.

(** The persisted collections after an oversized log has been handled. *)
Lemma process_log_oversized db id log :
  log_size log > max_size →
  process_log db id log =
  {| builds :=
       match test_id log with
       | Some _ => builds db
       | None => alter (inc_build (split_inc log)) (build_id log) (builds db)
       end;
     tests :=
       match test_id log with
       | Some t => alter (inc_test (split_inc log)) t (tests db)
       | None => tests db
       end;
     logs :=
       Store.delete_one id
         (Store.insert_many (new_logs log)
            (shift_log log (split_inc log) <$> logs db)) |}.
Proof.
  intros Hbig. unfold process_log.
  rewrite bool_decide_eq_false_2 by lia. done.
Qed.

Lemma process_log_compliant db id log :
  log_size log ≤ max_size → process_log db id log = db.
Proof. intros Hle. unfold process_log. by rewrite bool_decide_eq_true_2. Qed.

Lemma shift_log_lines log inc c : lines (shift_log log inc c) = lines c.
Proof. unfold shift_log. by destruct (later_sibling log c). Qed.

Lemma shift_log_scope log inc c :
  scope_of (shift_log log inc c) = scope_of c.
Proof. unfold shift_log. by destruct (later_sibling log c). Qed.

Lemma shift_log_size log inc c : log_size (shift_log log inc c) = log_size c.
Proof. unfold log_size. by rewrite shift_log_lines. Qed.

Lemma shift_log_other_scope log inc c :
  scope_of c ≠ scope_of log → shift_log log inc c = c.
Proof.
  intros Hne. unfold shift_log, later_sibling.
  destruct (decide (build_id c = build_id log)) as [Hb|Hb];
    [|by rewrite (bool_decide_eq_false_2 _ Hb)].
  destruct (decide (test_id c = test_id log)) as [Ht|Ht];
    [|by rewrite (bool_decide_eq_false_2 _ Ht), andb_false_r].
  destruct Hne. unfold scope_of. by rewrite Hb, Ht.
Qed.

Lemma shift_log_same_scope log inc c :
  scope_of c = scope_of log →
  seq (shift_log log inc c) =
  if bool_decide (seq c > seq log) then seq c + inc else seq c.
Proof.
  intros [= Hb Ht]. unfold shift_log, later_sibling.
  rewrite (bool_decide_eq_true_2 _ Hb), (bool_decide_eq_true_2 _ Ht). simpl.
  by case_bool_decide.
Qed.

Lemma next_id_fmap {A B} (f : A → B) (m : gmap oid A) :
  Store.next_id (f <$> m) = Store.next_id m.
Proof.
  unfold Store.next_id. f_equal. apply StoreFacts.foldr_max_perm.
  rewrite map_to_list_fmap, <- list_fmap_compose.
  by rewrite (list_fmap_ext (fst ∘ prod_map id f) fst) by (by intros ? []).
Qed.

Section filter_facts.
Context {A : Type} (P : A → Prop) `{!∀ x, Decision (P x)}.

Lemma filter_fmap_commute (f : A → A) (l : list A) :
  (∀ x, P (f x) ↔ P x) → filter P (f <$> l) = f <$> filter P l.
Proof.
  intros Hf. induction l as [|x l IH]; [done|].
  rewrite fmap_cons, !filter_cons.
  destruct (decide (P (f x))) as [HP|HP], (decide (P x)) as [HP'|HP'];
    rewrite ?fmap_cons, IH; try done; rewrite Hf in HP; done.
Qed.

Lemma filter_all (l : list A) : Forall P l → filter P l = l.
Proof.
  induction 1 as [|x l HP _ IH]; [done|].
  by rewrite filter_cons_True, IH.
Qed.

Lemma filter_none (l : list A) : Forall (λ x, ¬ P x) l → filter P l = [].
Proof.
  induction 1 as [|x l HP _ IH]; [done|]. by rewrite filter_cons_False.
Qed.

Lemma fmap_fixed (f : A → A) (l : list A) : Forall (λ x, f x = x) l → f <$> l = l.
Proof.
  induction 1 as [|x l Hx _ IH]; [done|]. by rewrite fmap_cons, Hx, IH.
Qed.
End filter_facts.

(** The log is split from the copy [log] the cursor handed over, while
    the store holds [cur] under the identity. *)
Section oversized_copy.
Variables (db : DB) (id : oid) (log cur : Log).
Hypothesis Hcur : logs db !! id = Some cur.
Hypothesis Hbig : log_size log > max_size.

Local Abbreviation db' := (process_log db id log).

(** Another identity that was free holds a replacement or stays free. *)
Lemma process_copy_lookup_new j :
  j ≠ id → logs db !! j = None →
  logs db' !! j =
  if bool_decide (Store.next_id (logs db) ≤ j)%N
  then new_logs log !! N.to_nat (j - Store.next_id (logs db))
  else None.
Proof.
  intros Hne Hnone. rewrite process_log_oversized by done. simpl.
  unfold Store.delete_one.
  rewrite lookup_delete_ne by done.
  case_bool_decide as Hge.
  - rewrite StoreFacts.insert_many_lookup_ge by (by rewrite next_id_fmap).
    by rewrite next_id_fmap.
  - rewrite StoreFacts.insert_many_lookup_lt by (rewrite next_id_fmap; lia).
    by rewrite lookup_fmap, Hnone.
Qed.

(** The collection afterwards, as a bag: the replacements and the other
    logs after [update_many]. *)
Lemma process_copy_all_logs :
  all_logs db' ≡ₚ
  new_logs log ++
  (shift_log log (split_inc log) <$>
     (map_to_list (delete id (logs db))).*2).
Proof.
  unfold all_logs. rewrite process_log_oversized by done. simpl.
  unfold Store.delete_one.
  apply (Permutation_cons_inv (a := shift_log log (split_inc log) cur)).
  change (shift_log log (split_inc log) cur :: ?l)
    with ((id, shift_log log (split_inc log) cur).2 :: l) at 1.
  rewrite <- (fmap_cons snd (id, shift_log log (split_inc log) cur)).
  rewrite map_to_list_delete.
  2:{ rewrite StoreFacts.insert_many_lookup_lt.
      - by rewrite lookup_fmap, Hcur.
      - rewrite next_id_fmap. by apply StoreFacts.lookup_lt_next_id. }
  rewrite StoreFacts.insert_many_values, map_to_list_fmap.
  rewrite <- (map_to_list_delete (logs db) id cur) by done.
  rewrite !fmap_cons. simpl.
  rewrite <- !list_fmap_compose.
  rewrite (Permutation_app_comm (new_logs log)). simpl.
  constructor. apply Permutation_app_tail.
  by rewrite (list_fmap_ext (snd ∘ prod_map Datatypes.id _) (_ ∘ snd))
    by (by intros ? []).
Qed.
End oversized_copy.

Section oversized.
Variables (db : DB) (id : oid) (log : Log).
Hypothesis Hlog : logs db !! id = Some log.
Hypothesis Hbig : log_size log > max_size.

Local Abbreviation db' := (process_log db id log).

(** The original is gone. *)
Lemma process_log_lookup_self : logs db' !! id = None.
Proof.
  rewrite process_log_oversized by done. simpl.
  apply lookup_delete_eq.
Qed.

(** Every other log that was there is still there, renumbered or not. *)
Lemma process_log_lookup_old j c :
  j ≠ id → logs db !! j = Some c →
  logs db' !! j = Some (shift_log log (split_inc log) c).
Proof.
  intros Hj Hc. rewrite process_log_oversized by done. simpl.
  unfold Store.delete_one. rewrite lookup_delete_ne by done.
  rewrite StoreFacts.insert_many_lookup_lt.
  - by rewrite lookup_fmap, Hc.
  - rewrite next_id_fmap. by apply StoreFacts.lookup_lt_next_id.
Qed.

(** An identity that was free holds a replacement or stays free. *)
Lemma process_log_lookup_new j :
  logs db !! j = None →
  logs db' !! j =
  if bool_decide (Store.next_id (logs db) ≤ j)%N
  then new_logs log !! N.to_nat (j - Store.next_id (logs db))
  else None.
Proof.
  intros Hnone. apply process_copy_lookup_new; [done| |done].
  intros ->. congruence.
Qed.

(** The collection afterwards, as a bag: the replacements and the other
    logs after [update_many]. *)
Lemma process_log_all_logs :
  all_logs db' ≡ₚ
  new_logs log ++
  (shift_log log (split_inc log) <$>
     (map_to_list (delete id (logs db))).*2).
Proof. by apply (process_copy_all_logs db id log log). Qed.

Lemma all_logs_before :
  all_logs db ≡ₚ log :: (map_to_list (delete id (logs db))).*2.
Proof.
  unfold all_logs.
  by rewrite <- (map_to_list_delete (logs db) id log) by done.
Qed.

Lemma scope_logs_before sc :
  scope_logs db sc ≡ₚ
  (if decide (scope_of log = sc) then [log] else []) ++ siblings db id sc.
Proof.
  unfold scope_logs, siblings. rewrite all_logs_before, filter_cons.
  by destruct (decide (scope_of log = sc)).
Qed.

Lemma scope_logs_after sc :
  scope_logs db' sc ≡ₚ
  if decide (scope_of log = sc)
  then new_logs log ++ (shift_log log (split_inc log) <$> siblings db id sc)
  else siblings db id sc.
Proof.
  unfold scope_logs, siblings.
  rewrite process_log_all_logs, filter_app.
  rewrite filter_fmap_commute by (intros c; by rewrite shift_log_scope).
  destruct (decide (scope_of log = sc)) as [Hsc|Hsc].
  - rewrite filter_all; [done|].
    apply Forall_forall. intros c Hc%new_logs_scope. congruence.
  - rewrite filter_none.
    2:{ apply Forall_forall. intros c Hc%new_logs_scope. congruence. }
    simpl. rewrite fmap_fixed; [done|].
    apply Forall_forall. intros c [Hc _]%list_elem_of_filter.
    apply shift_log_other_scope. congruence.
Qed.
End oversized.

(** ** Renumbering keeps the [seq] values of a scope contiguous *)

Lemma renumber_below s inc n :
  n ≤ s - 1 + 1 → renumber s inc <$> seqZ 1 (n - 1) = seqZ 1 (n - 1).
Proof.
  intros Hn. apply fmap_fixed, Forall_seqZ. intros k Hk.
  unfold renumber. rewrite bool_decide_eq_false_2; [done|lia].
Qed.

Lemma renumber_above s inc n :
  renumber s inc <$> seqZ (s + 1) n = seqZ (s + 1 + inc) n.
Proof.
  replace (s + 1 + inc) with (inc + (s + 1)) by lia.
  rewrite <- (fmap_add_seqZ inc (s + 1) n).
  apply (list_fmap_ext (renumber s inc) (Z.add inc)).
  intros i k [-> Hi]%lookup_seqZ. unfold renumber.
  rewrite bool_decide_eq_true_2; lia.
Qed.

Lemma renumber_seqs (s n inc : Z) (rest : list Z) :
  0 ≤ inc → s :: rest ≡ₚ seqZ 1 n →
  seqZ s (inc + 1) ++ (renumber s inc <$> rest) ≡ₚ seqZ 1 (n + inc).
Proof.
  intros Hinc Hperm.
  assert (1 ≤ s < 1 + n) as Hs.
  { apply elem_of_seqZ. rewrite <- Hperm. by left. }
  assert (seqZ 1 n = seqZ 1 (s - 1) ++ s :: seqZ (s + 1) (n - s)) as Hsplit.
  { replace n with ((s - 1) + (1 + (n - s))) at 1 by lia.
    rewrite seqZ_app by lia. f_equal.
    rewrite seqZ_cons by lia. f_equal; [lia|f_equal; lia]. }
  rewrite Hsplit in Hperm. apply Permutation_cons_app_inv in Hperm.
  rewrite Hperm, fmap_app, renumber_below, renumber_above by lia.
  assert (seqZ 1 (n + inc) =
          seqZ 1 (s - 1) ++ seqZ s (inc + 1) ++ seqZ (s + 1 + inc) (n - s))
    as ->.
  { replace (n + inc) with ((s - 1) + ((inc + 1) + (n - s))) by lia.
    rewrite (seqZ_app 1) by lia. f_equal.
    replace (1 + (s - 1)) with s by lia.
    rewrite (seqZ_app s) by lia. do 2 f_equal. lia. }
  apply Permutation_app_swap_app.
Qed.

Lemma renumber_NoDup (s inc : Z) (rest : list Z) :
  0 ≤ inc → NoDup (s :: rest) →
  NoDup (seqZ s (inc + 1) ++ (renumber s inc <$> rest)).
Proof.
  intros Hinc [Hs Hrest]%NoDup_cons.
  apply NoDup_app. split; [apply NoDup_seqZ|]. split.
  - intros k Hk%elem_of_seqZ (k0 & -> & Hk0)%list_elem_of_fmap.
    unfold renumber in Hk. case_bool_decide; [lia|].
    assert (k0 ≠ s) by (by intros ->). lia.
  - apply NoDup_fmap_2_strong; [|done].
    intros k1 k2 _ _. unfold renumber. repeat case_bool_decide; lia.
Qed.

Section oversized_scopes.
Variables (db : DB) (id : oid) (log : Log).
Hypothesis Hlog : logs db !! id = Some log.
Hypothesis Hbig : log_size log > max_size.

Local Abbreviation db' := (process_log db id log).

Lemma owner_counter_own :
  owner_counter db' (scope_of log) =
  (λ n, n + split_inc log) <$> owner_counter db (scope_of log).
Proof.
  rewrite process_log_oversized by done.
  unfold owner_counter, scope_of. simpl.
  destruct (test_id log) as [t|]; simpl.
  - rewrite lookup_alter_eq.
    destruct (tests db !! t) as [T|]; simpl; [|done].
    by destruct (decide (t_build_id T = build_id log)).
  - rewrite lookup_alter_eq. by destruct (builds db !! build_id log).
Qed.

Lemma owner_counter_other sc :
  sc ≠ scope_of log → is_Some (owner_counter db (scope_of log)) →
  owner_counter db' sc = owner_counter db sc.
Proof.
  intros Hsc Howner. rewrite process_log_oversized by done.
  unfold owner_counter, scope_of in *. simpl in *.
  destruct sc as [b [t|]], (test_id log) as [t0|] eqn:Ht0; simpl in *;
    try done.
  - destruct (decide (t = t0)) as [->|Hne].
    + rewrite lookup_alter_eq.
      destruct (tests db !! t0) as [T|]; simpl; [|done].
      destruct (decide (t_build_id T = build_id log)) as [Hb|];
        [|by destruct Howner].
      rewrite !decide_False; [done| |]; intros <-; destruct Hsc;
        by rewrite Hb.
    + by rewrite lookup_alter_ne.
  - destruct (decide (b = build_id log)) as [->|Hne]; [done|].
    by rewrite lookup_alter_ne.
Qed.

Lemma scope_seqs_before :
  seq <$> scope_logs db (scope_of log) ≡ₚ
  seq log :: (seq <$> siblings db id (scope_of log)).
Proof.
  rewrite scope_logs_before by done. by rewrite decide_True.
Qed.

Lemma scope_seqs_after :
  seq <$> scope_logs db' (scope_of log) ≡ₚ
  seqZ (seq log) (split_inc log + 1) ++
  (renumber (seq log) (split_inc log) <$>
     (seq <$> siblings db id (scope_of log))).
Proof.
  rewrite scope_logs_after by done.
  rewrite decide_True by done.
  rewrite fmap_app, new_logs_seqs, <- !list_fmap_compose.
  apply Permutation_app_head, reflexive_eq, list_fmap_ext.
  intros i c Hc%list_elem_of_lookup_2. simpl.
  apply list_elem_of_filter in Hc as [Hc _].
  by rewrite shift_log_same_scope.
Qed.

(** The scope of the log that is split stays contiguous. *)
Lemma contiguous_own :
  contiguous db (scope_of log) → contiguous db' (scope_of log).
Proof.
  unfold contiguous. rewrite owner_counter_own.
  destruct (owner_counter db (scope_of log)) as [n|]; simpl.
  - intros [Hn Hperm]. pose proof (split_inc_nonneg log) as Hinc.
    split; [lia|].
    rewrite scope_seqs_before in Hperm. rewrite scope_seqs_after.
    by apply renumber_seqs.
  - intros Hnil. exfalso.
    pose proof (scope_logs_before db id log Hlog (scope_of log)) as HP.
    rewrite Hnil, decide_True in HP by done.
    by apply Permutation_nil_cons in HP.
Qed.

(** Its [seq] values stay distinct. *)
Lemma distinct_seqs_own :
  distinct_seqs db (scope_of log) → distinct_seqs db' (scope_of log).
Proof.
  unfold distinct_seqs. rewrite scope_seqs_before, scope_seqs_after.
  apply renumber_NoDup, split_inc_nonneg.
Qed.

Lemma scope_logs_other sc :
  sc ≠ scope_of log → scope_logs db' sc ≡ₚ scope_logs db sc.
Proof.
  intros Hsc.
  rewrite scope_logs_after, scope_logs_before by done.
  by rewrite !decide_False by done.
Qed.

(** Every other scope is left as it was. *)
Lemma contiguous_other sc :
  sc ≠ scope_of log → contiguous db (scope_of log) →
  contiguous db sc → contiguous db' sc.
Proof.
  intros Hsc Hown. unfold contiguous.
  rewrite owner_counter_other; [|done|].
  - assert (scope_logs db' sc ≡ₚ scope_logs db sc) as Hsame.
    { rewrite scope_logs_after, scope_logs_before by done.
      by rewrite !decide_False by done. }
    destruct (owner_counter db sc) as [n|].
    + by rewrite Hsame.
    + intros Hnil. rewrite Hnil in Hsame.
      by apply Permutation_nil_r in Hsame.
  - unfold contiguous in Hown.
    destruct (owner_counter db (scope_of log)); [done|]. exfalso.
    pose proof (scope_logs_before db id log Hlog (scope_of log)) as HP.
    rewrite Hown, decide_True in HP by done.
    by apply Permutation_nil_cons in HP.
Qed.
End oversized_scopes.

Lemma process_log_contiguous db id log :
  logs db !! id = Some log →
  (∀ sc, contiguous db sc) → ∀ sc, contiguous (process_log db id log) sc.
Proof.
  intros Hlog Hall sc.
  destruct (decide (log_size log ≤ max_size)) as [Hle|Hbig].
  - by rewrite process_log_compliant.
  - destruct (decide (sc = scope_of log)) as [->|Hsc].
    + apply contiguous_own; [done|lia|done].
    + apply contiguous_other; [done|lia|done..].
Qed.

(** Invariant 1 only has to be checked on the scopes the store knows. *)
Lemma contiguous_known db :
  Forall (contiguous db) (known_scopes db) → ∀ sc, contiguous db sc.
Proof.
  intros Hknown sc.
  destruct (decide (sc ∈ known_scopes db)) as [Hin|Hout].
  { by apply (proj1 (Forall_forall _ _) Hknown). }
  unfold known_scopes in Hout. rewrite !elem_of_app in Hout.
  assert (scope_logs db sc = []) as Hnil.
  { apply filter_none, Forall_forall. intros l Hl Hsc.
    apply Hout. left. apply list_elem_of_fmap. by exists l. }
  unfold contiguous. rewrite Hnil.
  assert (owner_counter db sc = None) as ->; [|done].
  unfold owner_counter. destruct sc as [b [t|]]; simpl.
  - destruct (tests db !! t) as [T|] eqn:HT; [|done].
    destruct (decide (t_build_id T = b)) as [<-|]; [|done].
    destruct Hout. right. right. apply list_elem_of_fmap.
    exists (t, T). split; [done|]. by apply elem_of_map_to_list.
  - destruct (builds db !! b) as [B|] eqn:HB; [|done].
    destruct Hout. right. left. apply list_elem_of_fmap.
    exists (b, B). split; [done|]. by apply elem_of_map_to_list.
Qed.

Lemma contiguous_count db sc n :
  contiguous db sc → owner_counter db sc = Some n →
  n = Z.of_nat (length (scope_logs db sc)).
Proof.
  unfold contiguous. intros Hc Hn. rewrite Hn in Hc. destruct Hc as [Hn0 Hp].
  apply Permutation_length in Hp.
  rewrite length_fmap, length_seqZ in Hp. lia.
Qed.

(** C2.  In [twin_db] the [seq] values of the only scope are 1 and 2
    under the counter 2, without gap or duplicate.  The second log is
    split from the copy the cursor handed over, whose [seq] is still 2
    although the split of the first log has moved the stored log to 4:
    after the migration the scope holds the [seq] values 1, 2, 2, 3, 4
    under the counter 5, so 2 is there twice and 5 is missing. *)
Lemma outdated_seq_breaks_contiguity :
  (∀ sc, contiguous MoreSamples.twin_db sc) ∧
  seq <$> scope_logs_sorted (break_up_large_documents MoreSamples.twin_db)
            (1%N, None) = [1; 2; 2; 3; 4] ∧
  owner_counter (break_up_large_documents MoreSamples.twin_db) (1%N, None)
  = Some 5 ∧
  length (scope_logs (break_up_large_documents MoreSamples.twin_db)
            (1%N, None)) = 5%nat ∧
  ¬ NoDup (seq <$> scope_logs (break_up_large_documents MoreSamples.twin_db)
                     (1%N, None)) ∧
  ¬ contiguous (break_up_large_documents MoreSamples.twin_db) (1%N, None).
Proof.
  split.
  { apply contiguous_known, (bool_decide_unpack _). vm_compute. reflexivity. }
  split; [by vm_compute|]. split; [by vm_compute|]. split; [by vm_compute|].
  split; apply (bool_decide_eq_false_1 _); by vm_compute.
Qed.

(** ** The splitter: bound, degenerate cases *)

(** C3.  Every replacement log the splitter produces has a size of at
    most [max_size], except a replacement that consists of exactly one
    line whose own size exceeds [max_size]. *)
Theorem replacements_within_bound (log : Log) :
  Forall
    (λ c, log_size c ≤ max_size ∨
          ∃ l, lines c = [l] ∧ len (line_text l) > max_size)
    (new_logs log).
Proof. apply new_logs_within_bound. Qed.

Lemma split_line_length log st line :
  length (new_logs_of (split_line log st line)) =
  if bool_decide (st_new_log_size st + len (line_text line) > max_size)
  then S (length (new_logs_of st)) else length (new_logs_of st).
Proof.
  unfold split_line, opens_new_log, new_logs_of.
  case_bool_decide; simpl; rewrite !length_app; simpl; lia.
Qed.

(** C1.  The only line of [big_log] is larger than [max_size].  When the
    loop meets it the current replacement is still empty, and the test of
    line 162 opens a new one all the same: the split yields two logs, an
    empty one and one with the line, not the log itself. *)
Lemma single_line_split_not_degenerate :
  log_size Samples.big_log > max_size ∧
  length (lines Samples.big_log) = 1%nat ∧
  lines (st_new_log (split_init Samples.big_log)) = [] ∧
  opens_new_log (split_init Samples.big_log) Samples.big_line = true ∧
  length (new_logs Samples.big_log) = 2%nat ∧
  new_logs Samples.big_log ≠ [Samples.big_log].
Proof. repeat split; by vm_compute. Qed.

Lemma split_lines_head log st ls :
  st_closed st ≠ [] →
  head (new_logs_of (foldl (split_line log) st ls)) = head (st_closed st).
Proof.
  revert st. induction ls as [|l ls IH]; intros st Hne.
  - unfold new_logs_of. simpl. by destruct (st_closed st).
  - simpl. rewrite IH.
    + unfold split_line. destruct (opens_new_log st l); simpl; [|done].
      by destruct (st_closed st).
    + unfold split_line. destruct (opens_new_log st l); simpl; [|done].
      by destruct (st_closed st).
Qed.

Lemma split_first_too_large log l rest :
  lines log = l :: rest → len (line_text l) > max_size →
  head (new_logs log) = Some (fresh_log log (seq log)).
Proof.
  intros Hl Hbig. unfold new_logs, split_log. rewrite Hl. simpl.
  rewrite split_lines_head; unfold split_line, opens_new_log; simpl;
    rewrite bool_decide_eq_true_2 by lia; done.
Qed.

(** C10.  In every split each replacement log other than the first holds
    a line.  If the first line of an oversized log is by itself larger
    than [max_size], the first replacement holds no line, has the [seq]
    of the original and is stored as such. *)
Theorem first_replacement_may_be_empty (log : Log) :
  Forall (λ c, lines c ≠ []) (tail (new_logs log)) ∧
  ∀ db id l rest,
    logs db !! id = Some log →
    lines log = l :: rest → len (line_text l) > max_size →
    head (new_logs log) = Some (fresh_log log (seq log)) ∧
    lines (fresh_log log (seq log)) = [] ∧
    seq (fresh_log log (seq log)) = seq log ∧
    ∃ j, logs (process_log db id log) !! j = Some (fresh_log log (seq log)).
Proof.
  split; [apply new_logs_tail|].
  intros db id l rest Hlog Hl Hbig.
  pose proof (split_first_too_large log l rest Hl Hbig) as Hhead.
  repeat split; [done|].
  exists (Store.next_id (logs db)).
  assert (log_size log > max_size) as Hover.
  { rewrite log_size_lines, Hl. simpl.
    pose proof (lines_size_nonneg rest). lia. }
  rewrite process_log_lookup_new; [|done|done|].
  - rewrite bool_decide_eq_true_2 by lia. rewrite N.sub_diag. simpl.
    by rewrite <- head_lookup.
  - apply StoreFacts.lookup_ge_next_id. lia.
Qed.

Lemma first_replacement_may_be_empty_witness :
  logs Samples.big_db !! 1%N = Some Samples.big_log ∧
  lines Samples.big_log = Samples.big_line :: [] ∧
  len (line_text Samples.big_line) > max_size ∧
  head (new_logs Samples.big_log) = Some (fresh_log Samples.big_log 1) ∧
  lines (fresh_log Samples.big_log 1) = [] ∧
  seq (fresh_log Samples.big_log 1) = 1 ∧
  ∃ j, logs (process_log Samples.big_db 1%N Samples.big_log) !! j
       = Some (fresh_log Samples.big_log 1).
Proof.
  assert (logs Samples.big_db !! 1%N = Some Samples.big_log) as H1
    by (by vm_compute).
  assert (len (line_text Samples.big_line) > max_size) as H2
    by (by vm_compute).
  split; [exact H1|]. split; [reflexivity|]. split; [exact H2|].
  exact (proj2 (first_replacement_may_be_empty Samples.big_log)
           Samples.big_db 1%N Samples.big_line [] H1 eq_refl H2).
Defined.

(** ** Renumbering and the frame of a compliant log *)

Lemma shift_log_spec log inc c :
  shift_log log inc c =
  if bool_decide (scope_of c = scope_of log ∧ seq c > seq log)
  then set_seq c (seq c + inc) else c.
Proof.
  unfold shift_log, later_sibling, scope_of.
  destruct (decide (build_id c = build_id log)) as [Hb|Hb],
           (decide (test_id c = test_id log)) as [Ht|Ht],
           (decide (seq c > seq log)) as [Hs|Hs];
    rewrite ?(bool_decide_eq_true_2 _ Hb), ?(bool_decide_eq_false_2 _ Hb),
            ?(bool_decide_eq_true_2 _ Ht), ?(bool_decide_eq_false_2 _ Ht),
            ?(bool_decide_eq_true_2 _ Hs), ?(bool_decide_eq_false_2 _ Hs);
    simpl;
    first [ rewrite bool_decide_eq_true_2 by (by rewrite Hb, Ht); done
          | rewrite bool_decide_eq_false_2 by (intros [[=] ?]; done); done ].
Qed.



(** C7.  A log whose size is at most [max_size] causes no write: handling
    it leaves the whole store, hence the log itself, its siblings and the
    counter of its owner, as they were. *)
Theorem compliant_log_no_write db id log :
  log_size log ≤ max_size →
  process_log db id log = db ∧
  (∀ snap, snap !! id = Some log → visit snap db id = db).
Proof.
  intros Hle. split; [by apply process_log_compliant|].
  intros snap Hlog. unfold visit. rewrite Hlog.
  by apply process_log_compliant.
Qed.

Lemma compliant_log_no_write_witness :
  log_size (Samples.small_log 2) ≤ max_size ∧
  process_log Samples.double_db 2%N (Samples.small_log 2) = Samples.double_db ∧
  (logs Samples.double_db !! 2%N = Some (Samples.small_log 2) →
   visit (logs Samples.double_db) Samples.double_db 2%N = Samples.double_db).
Proof.
  assert (log_size (Samples.small_log 2) ≤ max_size) as H by (by vm_compute).
  split; [exact H|].
  destruct (compliant_log_no_write Samples.double_db 2%N _ H) as [H1 H2].
  split; [exact H1|]. exact (H2 (logs Samples.double_db)).
Defined.

(** ** The scenarios of the self-test *)

(** C6.  On the fixture of the self-test, whatever the clock, the
    migration leaves four logs in the scope of the global build, with
    [seq] 1 to 4, started at the first, second, second and fourth date,
    each holding one line of 3 MB of "1", "2", "3" and "4", and the
    counter of the global build is 4.  The scope of the test ends up the
    same way with the counter of the test at 4 (it was 3), while the
    counter of its build is 0 in every state of the scan.  The self-test
    prints that all tests passed. *)
Theorem fixture_scenarios (utcnow : nat → datetime) :
  let db0 := Fixture.db0 utcnow in
  let db := break_up_large_documents db0 in
  let gb := Fixture.global_build_id in
  let pb := Fixture.plain_build_id in
  let t := Fixture.test_doc_id in
  let expected b t k :=
    [ mk_log b t 1 (Fixture.date 0) [Fixture.one_line utcnow k "1"];
      mk_log b t 2 (Fixture.date 1) [Fixture.one_line utcnow (k + 1) "2"];
      mk_log b t 3 (Fixture.date 1) [Fixture.one_line utcnow (k + 2) "3"];
      mk_log b t 4 (Fixture.date 3) [Fixture.one_line utcnow (k + 3) "4"] ]
  in
  (b_seq <$> builds db0 !! gb = Some 3 ∧
   scope_logs_sorted db0 (gb, None) = Fixture.three_logs utcnow gb None 0 ∧
   scope_logs_sorted db (gb, None) = expected gb None 0%nat ∧
   b_seq <$> builds db !! gb = Some 4) ∧
  (t_seq <$> tests db0 !! t = Some 3 ∧
   scope_logs_sorted db0 (pb, Some t) =
   Fixture.three_logs utcnow pb (Some t) 4 ∧
   scope_logs_sorted db (pb, Some t) = expected pb (Some t) 4%nat ∧
   t_seq <$> tests db !! t = Some 4 ∧
   Forall (λ d, b_seq <$> builds d !! pb = Some 0)
     (scan_states db0 (Store.find_sorted_ids (logs db0)))) ∧
  Forall (λ l, len (line_text l) = 3 * 1024 * 1024)
    (concat (lines <$> all_logs db)) ∧
  Fixture.date 0 ≠ Fixture.date 1 ∧ Fixture.date 1 = Fixture.date 2 ∧
  Fixture.date 2 ≠ Fixture.date 3 ∧
  SelfTest.test utcnow = SelfTest.AllTestsPassed.
Proof.
  repeat split; try (by vm_compute).
  - apply (bool_decide_unpack _). by vm_compute.
  - apply (bool_decide_unpack _). by vm_compute.
Qed.

(** ** The scan *)

Section scan_order.
Context {A : Type}.
Implicit Types m : gmap oid A.

Lemma find_sorted_ids_perm m :
  Store.find_sorted_ids m ≡ₚ (map_to_list m).*1.
Proof. apply merge_sort_Permutation. Qed.

Lemma elem_of_find_sorted_ids m i :
  i ∈ Store.find_sorted_ids m ↔ is_Some (m !! i).
Proof.
  rewrite find_sorted_ids_perm, list_elem_of_fmap. split.
  - intros ([k x] & -> & Hin). exists x. by apply elem_of_map_to_list.
  - intros [x Hx]. exists (i, x). split; [done|].
    by apply elem_of_map_to_list.
Qed.

Lemma NoDup_find_sorted_ids m : NoDup (Store.find_sorted_ids m).
Proof. rewrite find_sorted_ids_perm. apply NoDup_fst_map_to_list. Qed.

End scan_order.

Lemma new_logs_nonempty log : ∃ c, new_logs log !! 0%nat = Some c.
Proof.
  unfold new_logs, new_logs_of.
  destruct (st_closed (split_log log)) as [|c cs]; simpl; eauto.
Qed.

(** ** The turns of the scan, on the copies the cursor hands over *)

Lemma renumbered_refl c : renumbered c c.
Proof. unfold renumbered. repeat split; lia. Qed.

Lemma renumbered_trans c1 c2 c3 :
  renumbered c1 c2 → renumbered c2 c3 → renumbered c1 c3.
Proof.
  unfold renumbered. intros (?&?&?&?&?) (?&?&?&?&?).
  repeat split; (congruence || lia).
Qed.

Lemma renumbered_size c c' : renumbered c c' → log_size c' = log_size c.
Proof. intros (_&_&_&Hl&_). unfold log_size. by rewrite Hl. Qed.

Lemma renumbered_scope c c' : renumbered c c' → scope_of c' = scope_of c.
Proof. intros (Hb&Ht&_). unfold scope_of. by rewrite Hb, Ht. Qed.

Lemma renumbered_shift log c :
  renumbered c (shift_log log (split_inc log) c).
Proof.
  pose proof (split_inc_nonneg log). unfold shift_log.
  destruct (later_sibling log c); [|apply renumbered_refl].
  unfold renumbered. simpl. repeat split; lia.
Qed.

(** What a log of the store is after an oversized copy has been split:
    a log that was there, renumbered or not, or a replacement. *)
Lemma process_log_lookup_cases db i log j c :
  log_size log > max_size →
  logs (process_log db i log) !! j = Some c →
  (∃ c0, j ≠ i ∧ logs db !! j = Some c0 ∧
         c = shift_log log (split_inc log) c0) ∨
  (logs db !! j = None ∧ c ∈ new_logs log).
Proof.
  intros Hbig Hc. destruct (decide (j = i)) as [->|Hne].
  { by rewrite process_log_lookup_self in Hc. }
  destruct (logs db !! j) as [c0|] eqn:Hj.
  - left. exists c0.
    rewrite (process_log_lookup_old db i log Hbig j c0) in Hc by done.
    by simplify_eq.
  - right. split; [done|].
    rewrite process_copy_lookup_new in Hc by done.
    case_bool_decide; [|done]. by eapply list_elem_of_lookup_2.
Qed.

(** At the start of the scan the copies are the logs of the store. *)
Lemma current_start db ids : current (logs db) db ids.
Proof.
  intros i log _ Hlog. exists log. split; [done|apply renumbered_refl].
Qed.

Lemma current_weaken snap db ids ids' :
  ids' ⊆ ids → current snap db ids → current snap db ids'.
Proof. intros Hsub Hcur i log Hi. apply Hcur. by apply Hsub. Qed.

Lemma current_head snap db i ids :
  current snap db (i :: ids) → current snap db [i].
Proof. apply current_weaken. intros j ->%list_elem_of_singleton. by left. Qed.

Lemma current_one snap db i log :
  current snap db [i] → snap !! i = Some log →
  ∃ cur, logs db !! i = Some cur ∧ renumbered log cur.
Proof. intros Hcur. apply Hcur. by left. Qed.

Lemma visit_process snap db id log :
  snap !! id = Some log → visit snap db id = process_log db id log.
Proof. intros Hlog. unfold visit. by rewrite Hlog. Qed.

Lemma scan_cons snap db i ids :
  scan snap db (i :: ids) = scan snap (visit snap db i) ids.
Proof. done. Qed.

(** A turn leaves every log but the one it visits in place. *)
Lemma visit_keeps snap db i j c :
  j ≠ i → logs db !! j = Some c →
  ∃ c', logs (visit snap db i) !! j = Some c' ∧ renumbered c c'.
Proof.
  intros Hne Hc. unfold visit.
  destruct (snap !! i) as [log|] eqn:Hlog;
    [|exists c; split; [done|apply renumbered_refl]].
  destruct (decide (log_size log ≤ max_size)) as [Hle|Hbig].
  - rewrite process_log_compliant by done.
    exists c. split; [done|apply renumbered_refl].
  - exists (shift_log log (split_inc log) c). split.
    + apply process_log_lookup_old; [lia|done..].
    + apply renumbered_shift.
Qed.

(** The copies still to come stay copies of logs of the store. *)
Lemma visit_current snap db i ids :
  i ∉ ids → current snap db (i :: ids) →
  current snap (visit snap db i) ids.
Proof.
  intros Hi Hcur j log Hj Hlog.
  destruct (Hcur j log) as (cur & Hc & Hr); [by right|done|].
  destruct (visit_keeps snap db i j cur) as (c' & Hc' & Hr');
    [by intros ->|done|].
  exists c'. split; [done|]. by eapply renumbered_trans.
Qed.

(** A turn of the scan only adds identities that were never used. *)
Lemma visit_new_ids snap db i j :
  is_Some (logs (visit snap db i) !! j) →
  is_Some (logs db !! j) ∨ (Store.next_id (logs db) ≤ j)%N.
Proof.
  unfold visit. destruct (snap !! i) as [log|] eqn:Hlog; [|by left].
  destruct (decide (log_size log ≤ max_size)) as [Hle|Hbig].
  { rewrite process_log_compliant by done. by left. }
  intros [c Hc].
  destruct (logs db !! j) as [c0|] eqn:Hj; [by left; eauto|].
  destruct (decide (j = i)) as [->|Hne].
  { rewrite process_log_lookup_self in Hc by lia. done. }
  rewrite process_copy_lookup_new in Hc by (done || lia).
  case_bool_decide; [by right|done].
Qed.

Lemma visit_next_id snap db i :
  current snap db [i] →
  (Store.next_id (logs db) ≤ Store.next_id (logs (visit snap db i)))%N.
Proof.
  intros Hcur. unfold visit.
  destruct (snap !! i) as [log|] eqn:Hlog; [|done].
  destruct (decide (log_size log ≤ max_size)) as [Hle|Hbig].
  { by rewrite process_log_compliant. }
  destruct (current_one snap db i log Hcur Hlog) as (cur & Hc & _).
  apply N.lt_le_incl, StoreFacts.lookup_lt_next_id.
  rewrite process_copy_lookup_new;
    [|lia| |by apply StoreFacts.lookup_ge_next_id].
  - rewrite bool_decide_eq_true_2, N.sub_diag by lia.
    change (N.to_nat 0) with 0%nat.
    destruct (new_logs_nonempty log) as [c ->]. eauto.
  - assert (i < Store.next_id (logs db))%N
      by (apply StoreFacts.lookup_lt_next_id; eauto).
    lia.
Qed.

Lemma scan_new_ids snap ids db j :
  NoDup ids → current snap db ids →
  is_Some (logs (scan snap db ids) !! j) →
  is_Some (logs db !! j) ∨ (Store.next_id (logs db) ≤ j)%N.
Proof.
  revert db. induction ids as [|i ids IH]; intros db Hnd Hcur; [by left|].
  apply NoDup_cons in Hnd as [Hi Hnd]. rewrite scan_cons.
  intros [Hold|Hnew]%IH; [| |done|by apply visit_current].
  - by apply visit_new_ids in Hold.
  - right. pose proof (visit_next_id snap db i (current_head _ _ _ _ Hcur)).
    lia.
Qed.



(** ** Running the migration again *)

Lemma run_scan_compliant ids db :
  all_compliant db → run_scan db ids = db.
Proof.
  intros Hall. unfold run_scan.
  assert (∀ d, scan (logs db) d ids = d) as Hscan; [|apply Hscan].
  induction ids as [|i ids IH]; intros d; [done|].
  rewrite scan_cons. unfold visit at 1.
  destruct (logs db !! i) as [log|] eqn:Hlog; [|done].
  rewrite process_log_compliant; [done|by eapply Hall].
Qed.

Lemma new_logs_lines log c l :
  c ∈ new_logs log → l ∈ lines c → l ∈ lines log.
Proof.
  intros Hc Hl. rewrite <- new_logs_concat.
  induction Hc as [c cs|c c' cs _ IH]; simpl; apply elem_of_app; auto.
Qed.

(** A replacement cut from a log whose lines all fit is within the
    bound. *)
Lemma new_logs_compliant log c :
  (∀ l, l ∈ lines log → len (line_text l) ≤ max_size) →
  c ∈ new_logs log → log_size c ≤ max_size.
Proof.
  intros Hfit Hc.
  pose proof (proj1 (Forall_forall _ _) (new_logs_within_bound log) c Hc)
    as [Hle|(l & Hl & Hbig)]; [done|].
  assert (l ∈ lines log) as Hin.
  { apply (new_logs_lines log c); [done|]. rewrite Hl. by left. }
  apply Hfit in Hin. lia.
Qed.

(** After the turns for [ids], every log is within the bound, provided
    this was so of the logs outside [ids] and no line is too large. *)
Lemma scan_leaves_compliant snap ids db :
  NoDup ids → (∀ i, i ∈ ids → is_Some (snap !! i)) →
  current snap db ids → lines_fit db →
  (∀ j c, logs db !! j = Some c → j ∉ ids → log_size c ≤ max_size) →
  all_compliant (scan snap db ids).
Proof.
  revert db. induction ids as [|i ids IH]; intros db Hnd Hdom Hcur Hfit Hdone.
  { intros j c Hc. eapply Hdone; [done|]. by intros ?%elem_of_nil. }
  apply NoDup_cons in Hnd as [Hi Hnd]. rewrite scan_cons.
  destruct (Hdom i) as [log Hlog]; [by left|].
  destruct (Hcur i log) as (cur & Hc & Hr); [by left|done|].
  pose proof Hr as (_ & _ & _ & Hlines & _).
  apply IH; [done|intros i' Hi'; apply Hdom; by right
            |by apply visit_current| |];
    rewrite (visit_process _ _ _ _ Hlog).
  - destruct (decide (log_size log ≤ max_size)) as [Hle|Hbig].
    { by rewrite process_log_compliant. }
    intros j c l Hj Hl.
    apply process_log_lookup_cases in Hj
      as [(c0 & Hne & Hc0 & ->)|[Hnone Hnew]]; [| |lia].
    + rewrite shift_log_lines in Hl. by eapply Hfit.
    + eapply (Hfit i cur); [done|]. rewrite Hlines.
      by eapply new_logs_lines.
  - intros j c Hj Hnotin.
    destruct (decide (log_size log ≤ max_size)) as [Hle|Hbig].
    { rewrite process_log_compliant in Hj by done.
      destruct (decide (j = i)) as [->|Hne].
      - simplify_eq. by rewrite (renumbered_size _ _ Hr).
      - eapply Hdone; [done|]. by intros [->|?]%elem_of_cons. }
    apply process_log_lookup_cases in Hj
      as [(c0 & Hne & Hc0 & ->)|[Hnone Hnew]]; [| |lia].
    + rewrite shift_log_size. eapply Hdone; [done|].
      by intros [->|?]%elem_of_cons.
    + eapply new_logs_compliant; [|done]. intros l Hl.
      eapply (Hfit i cur); [done|]. by rewrite Hlines.
Qed.

Lemma migration_makes_compliant db :
  lines_fit db → all_compliant (break_up_large_documents db).
Proof.
  intros Hfit. apply scan_leaves_compliant; [| |apply current_start|done|].
  - apply NoDup_find_sorted_ids.
  - intros i. by rewrite elem_of_find_sorted_ids.
  - intros j c Hc Hj. destruct Hj. apply elem_of_find_sorted_ids. eauto.
Qed.

(** C8, as the code has it.  If no line of the store is by itself larger
    than [max_size], running the migration twice in succession yields the
    state that running it once yields. *)
Theorem migration_idempotent_when_lines_fit db :
  (∀ id log l,
     logs db !! id = Some log → l ∈ lines log →
     len (line_text l) ≤ max_size) →
  break_up_large_documents (break_up_large_documents db) =
  break_up_large_documents db.
Proof.
  intros Hfit. unfold break_up_large_documents at 1.
  apply run_scan_compliant. by apply migration_makes_compliant.
Qed.

Lemma migration_idempotent_when_lines_fit_witness :
  (∀ id log l,
     logs Samples.double_db !! id = Some log → l ∈ lines log →
     len (line_text l) ≤ max_size) ∧
  break_up_large_documents (break_up_large_documents Samples.double_db) =
  break_up_large_documents Samples.double_db.
Proof.
  assert (∀ id log l,
     logs Samples.double_db !! id = Some log → l ∈ lines log →
     len (line_text l) ≤ max_size) as Hfit.
  { intros id log l Hlog Hl.
    apply (map_Forall_lookup_1
             (λ _ log, Forall (λ l, len (line_text l) ≤ max_size) (lines log))
             (logs Samples.double_db) id log) in Hlog.
    - by apply (proj1 (Forall_forall _ _) Hlog).
    - apply (bool_decide_unpack _). by vm_compute. }
  split; [exact Hfit|].
  exact (migration_idempotent_when_lines_fit Samples.double_db Hfit).
Defined.

(** C8 as stated fails: a log with a single line of 5 MB is split into an
    empty log and the line again at every run, so the second run adds a
    third log to the two the first run left. *)
Lemma second_run_splits_again :
  size (logs (break_up_large_documents Samples.big_db)) = 2%nat ∧
  size (logs (break_up_large_documents
                (break_up_large_documents Samples.big_db))) = 3%nat ∧
  break_up_large_documents (break_up_large_documents Samples.big_db) ≠
  break_up_large_documents Samples.big_db.
Proof.
  split; [by vm_compute|]. split; [by vm_compute|].
  intros Heq. apply (f_equal (λ d, size (logs d))) in Heq.
  by vm_compute in Heq.
Qed.

(** ** Lines in [seq] order *)

Global Instance seq_le_trans : Transitive seq_le.
Proof. unfold seq_le. intros a b c. lia. Qed.

Global Instance seq_le_total : Total seq_le.
Proof. unfold seq_le. intros a b. lia. Qed.

Lemma NoDup_fmap_inj_on {A B} (f : A → B) (l : list A) x y :
  NoDup (f <$> l) → x ∈ l → y ∈ l → f x = f y → x = y.
Proof.
  induction l as [|a l IH]; [by intros _ ?%elem_of_nil|].
  rewrite fmap_cons, NoDup_cons.
  intros [Ha Hnd] [->|Hx]%elem_of_cons [->|Hy]%elem_of_cons Hf; auto.
  - destruct Ha. rewrite Hf. apply list_elem_of_fmap. eauto.
  - destruct Ha. rewrite <- Hf. apply list_elem_of_fmap. eauto.
Qed.

(** With distinct [seq] values there is one way to put logs in [seq]
    order. *)
Lemma sort_by_seq_unique (l l' : list Log) :
  NoDup (seq <$> l) → l ≡ₚ l' → StronglySorted seq_le l' →
  merge_sort seq_le l = l'.
Proof.
  intros Hnd Hperm Hsorted.
  apply (StronglySorted_unique_strong seq_le);
    [|by apply StronglySorted_merge_sort; apply _|done|
     by rewrite merge_sort_Permutation].
  intros x1 x2 Hx1 Hx2 H12 H21.
  apply (NoDup_fmap_inj_on seq l); [done| | |unfold seq_le in *; lia].
  - by rewrite <- (merge_sort_Permutation seq_le l).
  - by rewrite Hperm.
Qed.

Lemma sort_by_seq_perm (l l' : list Log) :
  NoDup (seq <$> l) → l ≡ₚ l' →
  merge_sort seq_le l = merge_sort seq_le l'.
Proof.
  intros Hnd Hperm. apply sort_by_seq_unique; [done| |].
  - by rewrite merge_sort_Permutation.
  - apply StronglySorted_merge_sort; apply _.
Qed.

Lemma seqZ_sorted m n : StronglySorted Z.le (seqZ m n).
Proof.
  destruct (decide (n ≤ 0)) as [Hn|Hn]; [rewrite seqZ_nil by done; constructor|].
  rewrite <- (Z2Nat.id n) by lia. generalize (Z.to_nat n) as k. clear.
  intros k. revert m. induction k as [|k IH]; intros m.
  - rewrite seqZ_nil by done. constructor.
  - rewrite seqZ_cons by lia. constructor.
    + replace (Z.pred (Z.of_nat (S k))) with (Z.of_nat k) by lia. apply IH.
    + apply Forall_seqZ. lia.
Qed.

Lemma sorted_by_seq (l : list Log) :
  StronglySorted Z.le (seq <$> l) → StronglySorted seq_le l.
Proof.
  induction l as [|c l IH]; [constructor|].
  rewrite fmap_cons. intros [Hall Hl]%StronglySorted_cons.
  constructor; [by apply IH|]. by rewrite Forall_fmap in Hall.
Qed.

Lemma contiguous_NoDup db sc :
  contiguous db sc → NoDup (seq <$> scope_logs db sc).
Proof.
  unfold contiguous. destruct (owner_counter db sc) as [n|].
  - intros [_ ->]. apply NoDup_seqZ.
  - intros ->. constructor.
Qed.

Lemma concat_lines_shift log inc (l : list Log) :
  concat (lines <$> (shift_log log inc <$> l)) = concat (lines <$> l).
Proof.
  rewrite <- list_fmap_compose. f_equal. apply list_fmap_ext.
  intros i c _. simpl. apply shift_log_lines.
Qed.

Section oversized_lines.
Variables (db : DB) (id : oid) (log : Log).
Hypothesis Hlog : logs db !! id = Some log.
Hypothesis Hbig : log_size log > max_size.
Hypothesis Hown : distinct_seqs db (scope_of log).

Local Abbreviation sc0 := (scope_of log).
Local Abbreviation inc := (split_inc log).

(** The scope in [seq] order before the split: the logs below the
    original, the original, the logs above it; and after the split: the
    same logs below, the replacements, the logs above renumbered. *)
Lemma scope_sorted_around :
  ∃ lo hi,
    scope_logs_sorted db sc0 = lo ++ log :: hi ∧
    scope_logs_sorted (process_log db id log) sc0 =
    lo ++ new_logs log ++ (shift_log log inc <$> hi).
Proof.
  pose proof Hown as Hnd. unfold distinct_seqs in Hnd.
  assert (StronglySorted seq_le (scope_logs_sorted db sc0)) as Hsorted.
  { apply StronglySorted_merge_sort; apply _. }
  assert (scope_logs_sorted db sc0 ≡ₚ log :: siblings db id sc0) as Hperm.
  { unfold scope_logs_sorted.
    rewrite merge_sort_Permutation, scope_logs_before by done.
    by rewrite decide_True. }
  assert (log ∈ scope_logs_sorted db sc0) as Hin
    by (rewrite Hperm; by left).
  apply list_elem_of_split in Hin as (lo & hi & Hsplit).
  exists lo, hi. split; [done|].
  rewrite Hsplit in Hperm, Hsorted.
  apply Permutation_sym, Permutation_cons_app_inv, Permutation_sym in Hperm.
  assert (NoDup (seq <$> (lo ++ log :: hi))) as Hnd'.
  { rewrite <- Hsplit. unfold scope_logs_sorted.
    by rewrite merge_sort_Permutation. }
  apply StronglySorted_app in Hsorted as (Hcross & Hlo & Hhi).
  apply StronglySorted_cons in Hhi as [Habove Hhi].
  assert (∀ c, c ∈ lo ++ hi → scope_of c = sc0) as Hscope.
  { intros c Hc. rewrite Hperm in Hc.
    by apply list_elem_of_filter in Hc as [? _]. }
  assert (∀ c, c ∈ lo → seq c < seq log) as Hbelow.
  { intros c Hc.
    assert (seq_le c log) as Hle by (apply Hcross; [done|by left]).
    assert (seq c ≠ seq log) as Hne; [|unfold seq_le in Hle; lia].
    intros Heq. rewrite fmap_app, fmap_cons in Hnd'.
    apply NoDup_app in Hnd' as (_ & Hdisj & _).
    apply (Hdisj (seq c)); [by apply list_elem_of_fmap_2|].
    rewrite Heq. by left. }
  assert (∀ c, c ∈ hi → seq c > seq log) as Habove'.
  { intros c Hc.
    pose proof (proj1 (Forall_forall _ _) Habove c Hc) as Hle.
    assert (seq c ≠ seq log) as Hne; [|unfold seq_le in Hle; lia].
    intros Heq. rewrite fmap_app, fmap_cons in Hnd'.
    apply NoDup_app in Hnd' as (_ & _ & Hnd').
    apply NoDup_cons in Hnd' as [Hnotin _]. apply Hnotin.
    rewrite <- Heq. by apply list_elem_of_fmap_2. }
  assert (shift_log log inc <$> lo = lo) as Hlofix.
  { apply fmap_fixed, Forall_forall. intros c Hc.
    rewrite shift_log_spec, bool_decide_eq_false_2; [done|].
    intros [_ ?]. apply Hbelow in Hc. lia. }
  assert (∀ c, c ∈ hi → seq (shift_log log inc c) = seq c + inc) as Hhiseq.
  { intros c Hc. rewrite shift_log_same_scope.
    - rewrite bool_decide_eq_true_2; [done|by apply Habove'].
    - apply Hscope, elem_of_app. by right. }
  pose proof (split_inc_nonneg log) as Hinc.
  assert (∀ c, c ∈ new_logs log → seq log ≤ seq c ≤ seq log + inc) as Hnew.
  { intros c Hc. apply (list_elem_of_fmap_2 seq) in Hc.
    rewrite new_logs_seqs in Hc. apply elem_of_seqZ in Hc.
    lia. }
  unfold scope_logs_sorted. apply sort_by_seq_unique.
  - by apply distinct_seqs_own.
  - rewrite scope_logs_after by done.
    rewrite decide_True by done.
    rewrite <- Hperm, fmap_app, Hlofix.
    apply Permutation_app_swap_app.
  - apply StronglySorted_app. split; [|split; [done|]].
    + intros x y Hx [Hy|Hy]%elem_of_app; unfold seq_le.
      * apply Hbelow in Hx. apply Hnew in Hy. lia.
      * apply list_elem_of_fmap in Hy as (y0 & -> & Hy0).
        rewrite Hhiseq by done. apply Hbelow in Hx.
        apply Habove' in Hy0. lia.
    + apply StronglySorted_app. split; [|split].
      * intros x y Hx (y0 & -> & Hy0)%list_elem_of_fmap. unfold seq_le.
        rewrite Hhiseq by done. apply Hnew in Hx.
        apply Habove' in Hy0. lia.
      * apply sorted_by_seq. rewrite new_logs_seqs. apply seqZ_sorted.
      * clear -Hhi Hhiseq. induction Hhi as [|c hi' Hhi' IH Hall];
          [constructor|].
        rewrite fmap_cons. constructor.
        -- apply IH. intros c' Hc'. apply Hhiseq. by right.
        -- apply Forall_fmap, Forall_forall. intros c' Hc'. simpl.
           unfold seq_le. rewrite !Hhiseq by (by constructor).
           pose proof (proj1 (Forall_forall _ _) Hall c' Hc') as Hle.
           unfold seq_le in Hle. lia.
Qed.

Lemma scope_lines_own :
  scope_lines (process_log db id log) sc0 = scope_lines db sc0.
Proof.
  destruct scope_sorted_around as (lo & hi & Hbefore & Hafter).
  unfold scope_lines. rewrite Hbefore, Hafter.
  rewrite !fmap_app, !concat_app, fmap_cons. simpl.
  by rewrite new_logs_concat, concat_lines_shift.
Qed.
End oversized_lines.

Lemma process_log_distinct_seqs db id log :
  logs db !! id = Some log →
  (∀ sc, distinct_seqs db sc) →
  ∀ sc, distinct_seqs (process_log db id log) sc.
Proof.
  intros Hlog Hall sc.
  destruct (decide (log_size log ≤ max_size)) as [Hle|Hbig].
  { by rewrite process_log_compliant. }
  destruct (decide (sc = scope_of log)) as [->|Hsc].
  - apply distinct_seqs_own; [done|lia|done].
  - unfold distinct_seqs. rewrite scope_logs_other by (done || lia).
    apply Hall.
Qed.

Lemma process_log_scope_lines db id log sc :
  logs db !! id = Some log → (∀ sc, distinct_seqs db sc) →
  scope_lines (process_log db id log) sc = scope_lines db sc.
Proof.
  intros Hlog Hall.
  destruct (decide (log_size log ≤ max_size)) as [Hle|Hbig].
  { by rewrite process_log_compliant. }
  destruct (decide (sc = scope_of log)) as [->|Hsc].
  - apply scope_lines_own; [done|lia|done].
  - unfold scope_lines, scope_logs_sorted. do 2 f_equal.
    apply sort_by_seq_perm.
    + by apply process_log_distinct_seqs.
    + apply scope_logs_other; [done|lia|done].
Qed.

(** C4.  In [twin_db] no two logs share a [seq], and the lines of the
    only scope in [seq] order are a, b, c, d, e.  The second log is split
    from the copy the cursor handed over, whose [seq] is still 2 although
    the split of the first log has moved the stored log to 4, so its
    replacements get the [seq] values 2 and 3 and lie among those of the
    first log: after the migration the lines in [seq] order are
    a, d, b, e, c, and whatever order the two logs with [seq] 2 are taken
    in, the lines are not those of before. *)
Lemma outdated_seq_reorders_lines :
  (∀ sc, distinct_seqs MoreSamples.twin_db sc) ∧
  scope_lines MoreSamples.twin_db (1%N, None) =
  [Samples.line3 "a"; Samples.line3 "b"; Samples.line3 "c";
   Samples.line3 "d"; Samples.line3 "e"] ∧
  scope_lines (break_up_large_documents MoreSamples.twin_db) (1%N, None) =
  [Samples.line3 "a"; Samples.line3 "d"; Samples.line3 "b";
   Samples.line3 "e"; Samples.line3 "c"] ∧
  ∀ l,
    l ≡ₚ scope_logs (break_up_large_documents MoreSamples.twin_db)
           (1%N, None) →
    StronglySorted seq_le l →
    concat (lines <$> l) ≠ scope_lines MoreSamples.twin_db (1%N, None).
Proof.
  split.
  { intros sc. apply contiguous_NoDup. revert sc.
    apply contiguous_known, (bool_decide_unpack _). vm_compute. reflexivity. }
  split; [by vm_compute|]. split; [by vm_compute|].
  intros l Hperm. symmetry in Hperm.
  apply permutations_Permutation in Hperm. revert l Hperm.
  apply (proj1 (Forall_forall
    (λ l, StronglySorted seq_le l →
          concat (lines <$> l) ≠ scope_lines MoreSamples.twin_db (1%N, None))
    _)).
  apply (bool_decide_unpack _). by vm_compute.
Qed.

(** * Further properties of the code *)

(** ** The splitter *)

(** X1.  Every replacement of a log carries the build id, the test id (or
    its absence) and the [started] date of the log. *)
Theorem replacements_inherit_owner (log : Log) :
  Forall
    (λ c, build_id c = build_id log ∧ test_id c = test_id log ∧
          started c = started log)
    (new_logs log).
Proof. apply (inv_inherits _ _ _ (split_log_inv log)). Qed.

Lemma split_lines_current log ls :
  st_closed (split_lines log ls) = [] →
  lines (st_new_log (split_lines log ls)) = ls.
Proof.
  intros Hnil. pose proof (inv_concat _ _ _ (split_lines_inv log ls)) as Hcat.
  unfold new_logs_of in Hcat. rewrite Hnil in Hcat. simpl in Hcat.
  by rewrite app_nil_r in Hcat.
Qed.

(** No new log has been opened exactly when the lines handled so far fit
    in one. *)
Lemma split_lines_closed_nil log ls :
  st_closed (split_lines log ls) = [] ↔ lines_size ls ≤ max_size.
Proof.
  induction ls as [|l ls IH] using rev_ind.
  { split; [intros _; by vm_compute|done]. }
  rewrite split_lines_snoc, lines_size_app. simpl.
  pose proof (len_nonneg (line_text l)) as Hl.
  pose proof (lines_size_nonneg ls) as Hls.
  pose proof (inv_size _ _ _ (split_lines_inv log ls)) as Hsz.
  unfold split_line, opens_new_log. case_bool_decide as Hopen; simpl.
  - split.
    { intros Heq. apply (f_equal length) in Heq.
      rewrite length_app in Heq. simpl in Heq. lia. }
    intros Hfit.
    assert (st_closed (split_lines log ls) = []) as Hnil by (apply IH; lia).
    rewrite Hsz, log_size_lines, (split_lines_current _ _ Hnil) in Hopen. lia.
  - split.
    + intros Hnil. rewrite Hsz, log_size_lines in Hopen.
      rewrite (split_lines_current _ _ Hnil) in Hopen. lia.
    + intros Hfit. apply IH. lia.
Qed.

Lemma split_lines_length log ls :
  (length (new_logs_of (split_lines log ls)) ≤ S (length ls))%nat.
Proof.
  induction ls as [|l ls IH] using rev_ind; [done|].
  rewrite split_lines_snoc, split_line_length, length_app. simpl.
  case_bool_decide; lia.
Qed.

Lemma new_logs_single log :
  log_size log ≤ max_size → new_logs log = [log].
Proof.
  intros Hfit. rewrite log_size_lines in Hfit.
  pose proof (proj2 (split_lines_closed_nil log (lines log)) Hfit) as Hnil.
  pose proof (split_lines_current _ _ Hnil) as Hlines.
  pose proof (inv_inherits _ _ _ (split_lines_inv log (lines log))) as Hinh.
  pose proof (inv_seqs _ _ _ (split_lines_inv log (lines log))) as Hseq.
  unfold new_logs, split_log, new_logs_of in *.
  fold (split_lines log (lines log)) in *. rewrite Hnil in *. simpl in *.
  apply Forall_singleton in Hinh as (Hb & Ht & Hs).
  rewrite seqZ_cons in Hseq by lia. injection Hseq as Hseq.
  f_equal. destruct (st_new_log (split_lines log (lines log))), log.
  simpl in *. congruence.
Qed.

(** X2.  The splitter returns a single replacement exactly for a log of
    at most [max_size], and then the replacement is the log itself; an
    oversized log always gets two replacements or more.  There is never
    more than one replacement per line plus one. *)
Theorem split_count (log : Log) :
  (length (new_logs log) = 1%nat ↔ log_size log ≤ max_size) ∧
  (log_size log ≤ max_size → new_logs log = [log]) ∧
  (log_size log > max_size → (2 ≤ length (new_logs log))%nat) ∧
  (1 ≤ length (new_logs log) ≤ S (length (lines log)))%nat.
Proof.
  assert (length (new_logs log) = 1%nat ↔ log_size log ≤ max_size) as Hone.
  { rewrite log_size_lines, <- (split_lines_closed_nil log).
    unfold new_logs, new_logs_of, split_log.
    fold (split_lines log (lines log)). rewrite length_app. simpl.
    destruct (st_closed (split_lines log (lines log))); simpl;
      split; (done || lia). }
  assert (1 ≤ length (new_logs log))%nat as Hpos.
  { unfold new_logs, new_logs_of. rewrite length_app. simpl. lia. }
  split; [done|]. split; [apply new_logs_single|]. split.
  - intros Hbig.
    assert (length (new_logs log) ≠ 1%nat) by (rewrite Hone; lia). lia.
  - split; [done|]. apply split_lines_length.
Qed.

Lemma split_count_witness :
  log_size Samples.double_log > max_size ∧
  (2 ≤ length (new_logs Samples.double_log))%nat ∧
  log_size (Samples.small_log 1) ≤ max_size ∧
  new_logs (Samples.small_log 1) = [Samples.small_log 1].
Proof.
  assert (log_size Samples.double_log > max_size) as H1 by (by vm_compute).
  assert (log_size (Samples.small_log 1) ≤ max_size) as H2 by (by vm_compute).
  split; [exact H1|].
  split; [exact (proj1 (proj2 (proj2 (split_count Samples.double_log))) H1)|].
  split; [exact H2|].
  exact (proj1 (proj2 (split_count (Samples.small_log 1))) H2).
Defined.

Lemma split_lines_tight log ls i c1 c2 :
  new_logs_of (split_lines log ls) !! i = Some c1 →
  new_logs_of (split_lines log ls) !! S i = Some c2 →
  tight c1 c2.
Proof.
  revert i c1 c2. induction ls as [|l ls IH] using rev_ind; intros i c1 c2.
  { by intros _ ?. }
  rewrite split_lines_snoc.
  pose proof (inv_size _ _ _ (split_lines_inv log ls)) as Hsz.
  specialize (IH i).
  set (st := split_lines log ls) in *.
  unfold split_line, opens_new_log.
  unfold new_logs_of in *. case_bool_decide as Hopen; simpl.
  - (* the pair is an old one, or the log just closed and the new one *)
    intros H1 H2.
    destruct (decide (S i < length (st_closed st ++ [st_new_log st]))%nat)
      as [Hlt|Hge].
    + rewrite lookup_app_l in H1 by lia. rewrite lookup_app_l in H2 by lia.
      by apply IH.
    + apply lookup_lt_Some in H2 as Hlen. rewrite !length_app in *.
      simpl in *.
      assert (i = length (st_closed st)) as -> by lia.
      rewrite lookup_app_l in H1 by (rewrite length_app; simpl; lia).
      rewrite lookup_app_r, Nat.sub_diag in H1 by lia.
      rewrite lookup_app_r in H2 by (rewrite length_app; simpl; lia).
      rewrite length_app in H2. simpl in H2.
      replace (S (length (st_closed st)) - (length (st_closed st) + 1))%nat
        with 0%nat in H2 by lia.
      simpl in *. simplify_eq.
      exists l, []. split; [done|]. lia.
  - (* the current log only grew at its end *)
    intros H1 H2.
    destruct (decide (S i < length (st_closed st))%nat) as [Hlt|Hge].
    + rewrite lookup_app_l in H1 by lia. rewrite lookup_app_l in H2 by lia.
      apply IH; by rewrite lookup_app_l by lia.
    + apply lookup_lt_Some in H2 as Hlen. rewrite length_app in Hlen.
      simpl in Hlen.
      assert (S i = length (st_closed st)) as Hi by lia.
      rewrite lookup_app_l in H1 by lia.
      rewrite lookup_app_r, Hi, Nat.sub_diag in H2 by lia.
      simpl in H2. simplify_eq.
      destruct (IH c1 (st_new_log st)) as (line & rest & Hlines & Hbig).
      * by rewrite lookup_app_l by lia.
      * by rewrite lookup_app_r, Hi, Nat.sub_diag by lia.
      * exists line, (rest ++ [l]). simpl. by rewrite Hlines.
Qed.

(** X3.  The packing is greedy: of two replacements that follow each
    other, the later one starts with a line that no longer fitted into
    the earlier one. *)
Theorem split_is_greedy (log : Log) (i : nat) (c1 c2 : Log) :
  new_logs log !! i = Some c1 → new_logs log !! S i = Some c2 →
  ∃ line rest,
    lines c2 = line :: rest ∧
    log_size c1 + len (line_text line) > max_size.
Proof. apply split_lines_tight. Qed.

Lemma split_is_greedy_witness :
  new_logs Samples.double_log !! 0%nat
  = Some (mk_log 1%N None 1 Samples.noon [Samples.line3 "a"]) ∧
  new_logs Samples.double_log !! 1%nat
  = Some (mk_log 1%N None 2 Samples.noon [Samples.line3 "b"]) ∧
  ∃ line rest,
    lines (mk_log 1%N None 2 Samples.noon [Samples.line3 "b"])
    = line :: rest ∧
    log_size (mk_log 1%N None 1 Samples.noon [Samples.line3 "a"]) +
    len (line_text line) > max_size.
Proof.
  split; [reflexivity|]. split; [reflexivity|].
  exact (split_is_greedy Samples.double_log 0 _ _ eq_refl eq_refl).
Defined.

(** ** What the migration does to each log of the store *)

Lemma scan_keeps snap ids db j c :
  j ∉ ids → logs db !! j = Some c →
  ∃ c', logs (scan snap db ids) !! j = Some c' ∧ renumbered c c'.
Proof.
  revert db c. induction ids as [|i ids IH]; intros db c Hj Hc.
  { exists c. split; [done|apply renumbered_refl]. }
  apply not_elem_of_cons in Hj as [Hne Hj]. rewrite scan_cons.
  destruct (visit_keeps snap db i j c Hne Hc) as (c1 & Hc1 & Hr1).
  destruct (IH (visit snap db i) c1 Hj Hc1) as (c2 & Hc2 & Hr2).
  exists c2. split; [done|]. by eapply renumbered_trans.
Qed.

(** An identity that was given out and is free stays free. *)
Lemma scan_gone snap ids db j :
  NoDup ids → current snap db ids →
  logs db !! j = None → (j < Store.next_id (logs db))%N →
  logs (scan snap db ids) !! j = None.
Proof.
  intros Hnd Hcur Hnone Hlt. apply eq_None_not_Some.
  intros [Hold|Hnew]%scan_new_ids; [| |done..].
  - rewrite Hnone in Hold. by destruct Hold.
  - lia.
Qed.

Lemma scan_fate snap ids db id log :
  NoDup ids → current snap db ids → id ∈ ids → snap !! id = Some log →
  if decide (log_size log ≤ max_size)
  then ∃ c, logs (scan snap db ids) !! id = Some c ∧ renumbered log c
  else logs (scan snap db ids) !! id = None.
Proof.
  revert db. induction ids as [|i ids IH]; intros db Hnd Hcur Hin Hlog.
  { by apply elem_of_nil in Hin. }
  apply NoDup_cons in Hnd as [Hi Hnd]. rewrite scan_cons.
  pose proof (visit_current snap db i ids Hi Hcur) as Hcur'.
  destruct (decide (id = i)) as [->|Hne];
    [|apply elem_of_cons in Hin as [?|Hin]; [done|by apply IH]].
  destruct (Hcur i log) as (cur & Hc & Hr); [by left|done|].
  pose proof (visit_next_id snap db i (current_head _ _ _ _ Hcur)) as Hmono.
  rewrite (visit_process _ _ _ _ Hlog) in *.
  destruct (decide (log_size log ≤ max_size)) as [Hle|Hbig].
  - rewrite process_log_compliant by done.
    destruct (scan_keeps snap ids db i cur Hi Hc) as (c & Hc' & Hr').
    exists c. split; [done|]. by eapply renumbered_trans.
  - apply scan_gone; [done..| |].
    + apply process_log_lookup_self. lia.
    + assert (i < Store.next_id (logs db))%N
        by (apply StoreFacts.lookup_lt_next_id; eauto).
      lia.
Qed.

(** X4.  What becomes of a log of the store: if it is larger than
    [max_size] it is deleted; otherwise it stays under its identity with
    its build id, test id, date and lines, and a [seq] that is the old
    one or a higher one. *)
Theorem fate_of_a_log db id log :
  logs db !! id = Some log →
  (log_size log > max_size →
   logs (break_up_large_documents db) !! id = None) ∧
  (log_size log ≤ max_size →
   ∃ c, logs (break_up_large_documents db) !! id = Some c ∧
        build_id c = build_id log ∧ test_id c = test_id log ∧
        started c = started log ∧ lines c = lines log ∧
        seq log ≤ seq c).
Proof.
  intros Hlog.
  pose proof (scan_fate (logs db) (Store.find_sorted_ids (logs db)) db id log
                (NoDup_find_sorted_ids _) (current_start _ _)) as Hfate.
  destruct (decide (log_size log ≤ max_size)) as [Hle|Hbig];
    (split; [intros ?|intros ?]; try lia);
    apply Hfate; try done; apply elem_of_find_sorted_ids; eauto.
Qed.

Lemma fate_of_a_log_witness :
  logs Samples.double_db !! 2%N = Some (Samples.small_log 2) ∧
  log_size (Samples.small_log 2) ≤ max_size ∧
  ∃ c, logs (break_up_large_documents Samples.double_db) !! 2%N = Some c ∧
       build_id c = 1%N ∧ test_id c = None ∧
       started c = Samples.noon ∧ lines c = [Samples.line3 "c"] ∧
       2 ≤ seq c.
Proof.
  assert (logs Samples.double_db !! 2%N = Some (Samples.small_log 2)) as H1
    by (by vm_compute).
  assert (log_size (Samples.small_log 2) ≤ max_size) as H2 by (by vm_compute).
  split; [exact H1|]. split; [exact H2|].
  exact (proj2 (fate_of_a_log Samples.double_db 2%N _ H1) H2).
Defined.

(** X5.  The migration leaves the store as it is exactly when no log is
    larger than [max_size]. *)
Theorem unchanged_iff_compliant db :
  break_up_large_documents db = db ↔
  ∀ id log, logs db !! id = Some log → log_size log ≤ max_size.
Proof.
  split.
  - intros Hsame id log Hlog.
    destruct (decide (log_size log ≤ max_size)) as [|Hbig]; [done|].
    pose proof (scan_fate (logs db) (Store.find_sorted_ids (logs db))
                  db id log (NoDup_find_sorted_ids _) (current_start _ _))
      as Hfate.
    rewrite decide_False in Hfate by done.
    unfold break_up_large_documents, run_scan in Hsame.
    rewrite Hsame in Hfate.
    rewrite Hfate in Hlog; [done| |done].
    apply elem_of_find_sorted_ids. eauto.
  - intros Hall. by apply run_scan_compliant.
Qed.

Lemma within_bound_shift log inc c :
  within_bound c → within_bound (shift_log log inc c).
Proof.
  unfold within_bound. by rewrite shift_log_size, shift_log_lines.
Qed.

Lemma scan_leaves_bounded snap ids db :
  NoDup ids → (∀ i, i ∈ ids → is_Some (snap !! i)) →
  current snap db ids →
  (∀ j c, logs db !! j = Some c → j ∉ ids → within_bound c) →
  ∀ j c, logs (scan snap db ids) !! j = Some c → within_bound c.
Proof.
  revert db. induction ids as [|i ids IH]; intros db Hnd Hdom Hcur Hdone.
  { intros j c Hc. eapply Hdone; [done|]. by intros ?%elem_of_nil. }
  apply NoDup_cons in Hnd as [Hi Hnd]. rewrite scan_cons.
  destruct (Hdom i) as [log Hlog]; [by left|].
  destruct (Hcur i log) as (cur & Hc & Hr); [by left|done|].
  apply IH; [done|intros i' Hi'; apply Hdom; by right
            |by apply visit_current|].
  rewrite (visit_process _ _ _ _ Hlog). intros j c Hj Hnotin.
  destruct (decide (log_size log ≤ max_size)) as [Hle|Hbig].
  { rewrite process_log_compliant in Hj by done.
    destruct (decide (j = i)) as [->|Hne].
    - left. simplify_eq. by rewrite (renumbered_size _ _ Hr).
    - eapply Hdone; [done|]. by intros [->|?]%elem_of_cons. }
  apply process_log_lookup_cases in Hj
    as [(c0 & Hne & Hc0 & ->)|[Hnone Hnew]]; [| |lia].
  - apply within_bound_shift. eapply Hdone; [done|].
    by intros [->|?]%elem_of_cons.
  - by apply (proj1 (Forall_forall _ _) (new_logs_within_bound log)).
Qed.

(** X6.  After the migration every log of the store is of at most
    [max_size], or holds exactly one line that is larger than [max_size]
    by itself. *)
Theorem store_within_bound_after db :
  map_Forall
    (λ _ c, log_size c ≤ max_size ∨
            ∃ l, lines c = [l] ∧ len (line_text l) > max_size)
    (logs (break_up_large_documents db)).
Proof.
  intros j c Hc.
  apply (scan_leaves_bounded (logs db) (Store.find_sorted_ids (logs db)) db)
    with (j := j); [| |apply current_start| |done].
  - apply NoDup_find_sorted_ids.
  - intros i. by rewrite elem_of_find_sorted_ids.
  - intros j' c' Hc' Hj'. destruct Hj'. apply elem_of_find_sorted_ids. eauto.
Qed.

(** ** Lines, owners and counters over the whole store *)

Lemma concat_Permutation {A} (ls1 ls2 : list (list A)) :
  ls1 ≡ₚ ls2 → concat ls1 ≡ₚ concat ls2.
Proof.
  induction 1 as [|l ls1 ls2 _ IH|l1 l2 ls|ls1 ls2 ls3 _ IH1 _ IH2]; simpl.
  - done.
  - by rewrite IH.
  - rewrite !app_assoc. by rewrite (Permutation_app_comm l1 l2).
  - by rewrite IH1.
Qed.

Lemma visit_all_lines snap db i :
  current snap db [i] →
  concat (lines <$> all_logs (visit snap db i)) ≡ₚ
  concat (lines <$> all_logs db).
Proof.
  intros Hcur. unfold visit.
  destruct (snap !! i) as [log|] eqn:Hlog; [|done].
  destruct (decide (log_size log ≤ max_size)) as [Hle|Hbig].
  { by rewrite process_log_compliant. }
  destruct (current_one snap db i log Hcur Hlog)
    as (cur & Hc & _ & _ & _ & Hlines & _).
  rewrite (concat_Permutation _ _
             (fmap_Permutation lines _ _
                (process_copy_all_logs db i log cur Hc ltac:(lia)))).
  rewrite (concat_Permutation _ _
             (fmap_Permutation lines _ _ (all_logs_before db i cur Hc))).
  rewrite fmap_app, concat_app, new_logs_concat, <- list_fmap_compose.
  simpl. rewrite Hlines. apply Permutation_app_head, reflexive_eq. f_equal.
  apply list_fmap_ext. intros k c _. simpl. apply shift_log_lines.
Qed.

Lemma scan_all_lines snap ids db :
  NoDup ids → current snap db ids →
  concat (lines <$> all_logs (scan snap db ids)) ≡ₚ
  concat (lines <$> all_logs db).
Proof.
  revert db. induction ids as [|i ids IH]; intros db Hnd Hcur; [done|].
  apply NoDup_cons in Hnd as [Hi Hnd].
  rewrite scan_cons, IH by (done || by apply visit_current).
  by apply visit_all_lines, (current_head _ _ _ ids).
Qed.

(** X7.  Over the whole store the migration keeps the lines as a bag:
    whatever the [seq] values are, no line is lost, repeated or
    changed. *)
Theorem all_lines_kept db :
  concat (lines <$> all_logs (break_up_large_documents db)) ≡ₚ
  concat (lines <$> all_logs db).
Proof.
  apply scan_all_lines; [apply NoDup_find_sorted_ids|apply current_start].
Qed.

Lemma visit_builds snap db i b :
  option_Forall2 (λ B B', b_name B' = b_name B ∧ b_seq B ≤ b_seq B')
    (builds db !! b) (builds (visit snap db i) !! b).
Proof.
  assert (∀ o : option Build,
            option_Forall2
              (λ B B', b_name B' = b_name B ∧ b_seq B ≤ b_seq B') o o) as Hrefl.
  { intros [B|]; constructor. split; [done|lia]. }
  unfold visit. destruct (snap !! i) as [log|] eqn:Hlog; [|done].
  destruct (decide (log_size log ≤ max_size)) as [Hle|Hbig].
  { by rewrite process_log_compliant. }
  rewrite process_log_oversized by lia. simpl.
  destruct (test_id log); [done|].
  destruct (decide (b = build_id log)) as [->|Hne].
  - rewrite lookup_alter_eq.
    destruct (builds db !! build_id log) as [B|]; constructor. simpl.
    pose proof (split_inc_nonneg log). split; [done|lia].
  - by rewrite lookup_alter_ne.
Qed.

Lemma visit_tests snap db i t :
  option_Forall2
    (λ T T', t_name T' = t_name T ∧ t_build_id T' = t_build_id T ∧
             t_seq T ≤ t_seq T')
    (tests db !! t) (tests (visit snap db i) !! t).
Proof.
  assert (∀ o : option Test,
            option_Forall2
              (λ T T', t_name T' = t_name T ∧ t_build_id T' = t_build_id T ∧
                       t_seq T ≤ t_seq T') o o) as Hrefl.
  { intros [T|]; constructor. repeat split; lia. }
  unfold visit. destruct (snap !! i) as [log|] eqn:Hlog; [|done].
  destruct (decide (log_size log ≤ max_size)) as [Hle|Hbig].
  { by rewrite process_log_compliant. }
  rewrite process_log_oversized by lia. simpl.
  destruct (test_id log) as [t0|]; [|done].
  destruct (decide (t = t0)) as [->|Hne].
  - rewrite lookup_alter_eq.
    destruct (tests db !! t0) as [T|]; constructor. simpl.
    pose proof (split_inc_nonneg log). repeat split; lia.
  - by rewrite lookup_alter_ne.
Qed.

(** X8.  The migration neither adds nor removes a build or a test and
    changes nothing of them but [seq], which never goes down. *)
Theorem owners_only_grow db :
  (∀ b,
     option_Forall2 (λ B B', b_name B' = b_name B ∧ b_seq B ≤ b_seq B')
       (builds db !! b) (builds (break_up_large_documents db) !! b)) ∧
  (∀ t,
     option_Forall2
       (λ T T', t_name T' = t_name T ∧ t_build_id T' = t_build_id T ∧
                t_seq T ≤ t_seq T')
       (tests db !! t) (tests (break_up_large_documents db) !! t)).
Proof.
  unfold break_up_large_documents, run_scan.
  generalize (Store.find_sorted_ids (logs db)) as ids.
  generalize (logs db) as snap. intros snap ids.
  revert db. induction ids as [|i ids IH]; intros db.
  { split; intros k; simpl.
    - destruct (builds db !! k); constructor. split; [done|lia].
    - destruct (tests db !! k); constructor. repeat split; lia. }
  rewrite scan_cons. destruct (IH (visit snap db i)) as [IHb IHt]. split.
  - intros b. pose proof (visit_builds snap db i b) as H1.
    specialize (IHb b).
    destruct H1 as [B B1 [Hn1 Hs1]|]; [|done].
    inversion IHb as [B1' B2 [Hn2 Hs2]|]; subst. constructor.
    split; [congruence|lia].
  - intros t. pose proof (visit_tests snap db i t) as H1.
    specialize (IHt t).
    destruct H1 as [T T1 (Hn1 & Hb1 & Hs1)|]; [|done].
    inversion IHt as [T1' T2 (Hn2 & Hb2 & Hs2)|]; subst. constructor.
    repeat split; (congruence || lia).
Qed.

(** ** Counters and numbers of logs *)

Lemma split_inc_pos log : log_size log > max_size → 1 ≤ split_inc log.
Proof.
  intros Hbig. unfold split_inc.
  rewrite (inv_seq _ _ _ (split_log_inv log)).
  destruct (st_closed (split_log log)) as [|c cs] eqn:Hnil; simpl; [|lia].
  apply (split_lines_closed_nil log (lines log)) in Hnil.
  rewrite log_size_lines in Hbig. lia.
Qed.

Section counting.
Context (P : Log → Prop) `{!∀ c, Decision (P c)}.
Hypothesis P_scope : ∀ c c', scope_of c = scope_of c' → P c → P c'.

(** How many logs with [P] a turn adds. *)
Lemma visit_count snap db i :
  current snap db [i] →
  Z.of_nat (length (filter P (all_logs (visit snap db i)))) =
  Z.of_nat (length (filter P (all_logs db))) +
  match snap !! i with
  | Some log =>
      if decide (P log ∧ log_size log > max_size) then split_inc log else 0
  | None => 0
  end.
Proof.
  intros Hcur. unfold visit.
  destruct (snap !! i) as [log|] eqn:Hlog; [|lia].
  destruct (decide (log_size log ≤ max_size)) as [Hle|Hbig].
  { rewrite process_log_compliant by done.
    rewrite decide_False by (intros [_ ?]; lia). lia. }
  assert (log_size log > max_size) as Hbig' by lia.
  destruct (current_one snap db i log Hcur Hlog) as (cur & Hc & Hr).
  apply renumbered_scope in Hr.
  rewrite (process_copy_all_logs db i log cur Hc Hbig').
  rewrite (all_logs_before db i cur Hc).
  rewrite filter_app, filter_cons, length_app.
  rewrite filter_fmap_commute, length_fmap.
  2:{ intros c. split; apply P_scope; by rewrite shift_log_scope. }
  destruct (decide (P log)) as [HP|HP].
  - rewrite (decide_True (P:=P cur)) by (by apply (P_scope log)).
    rewrite decide_True by done.
    rewrite filter_all.
    + pose proof (new_logs_length log). simpl. lia.
    + apply Forall_forall. intros c Hc'%new_logs_scope.
      by apply (P_scope log).
  - rewrite (decide_False (P:=P cur))
      by (intros Hcur'; apply HP; by apply (P_scope cur)).
    rewrite decide_False by (by intros [? _]).
    rewrite filter_none.
    + simpl. lia.
    + apply Forall_forall. intros c Hc'%new_logs_scope Hc''.
      apply HP. by apply (P_scope c).
Qed.
End counting.

Lemma fmap_add_0 (o : option Z) : o = (λ n, n + 0) <$> o.
Proof. destruct o; simpl; f_equal; lia. Qed.

Lemma fmap_add_add (o : option Z) (a b : Z) :
  (λ n, n + b) <$> ((λ n, n + a) <$> o) = (λ n, n + (a + b)) <$> o.
Proof. destruct o; simpl; f_equal; lia. Qed.

Lemma fmap_add_ext (o : option Z) (a b : Z) :
  a = b → (λ n, n + a) <$> o = (λ n, n + b) <$> o.
Proof. by intros ->. Qed.

Lemma visit_build_counter snap db i b :
  current snap db [i] →
  b_seq <$> builds (visit snap db i) !! b =
  (λ n, n + (Z.of_nat (length (scope_logs (visit snap db i) (b, None))) -
             Z.of_nat (length (scope_logs db (b, None)))))
    <$> (b_seq <$> builds db !! b).
Proof.
  intros Hcur. unfold scope_logs.
  rewrite (visit_count (λ l, scope_of l = (b, None)))
    by (done || congruence).
  match goal with |- _ = (λ n, n + (?c + ?g - ?c)) <$> ?o =>
    rewrite (fmap_add_ext o (c + g - c) g) by lia end.
  unfold visit. destruct (snap !! i) as [log|] eqn:Hlog;
    [|apply fmap_add_0].
  destruct (decide (log_size log ≤ max_size)) as [Hle|Hbig].
  { rewrite process_log_compliant by done.
    rewrite decide_False by (intros [_ ?]; lia). apply fmap_add_0. }
  rewrite process_log_oversized by lia. simpl. unfold scope_of.
  destruct (test_id log) as [t|] eqn:Ht.
  { rewrite decide_False by (by intros [[=] _]). apply fmap_add_0. }
  destruct (decide (build_id log = b)) as [<-|Hne].
  - rewrite decide_True by (split; [done|lia]).
    rewrite lookup_alter_eq. by destruct (builds db !! build_id log).
  - rewrite decide_False by (by intros [[=] _]).
    rewrite lookup_alter_ne by done. apply fmap_add_0.
Qed.

Lemma visit_test_counter snap db i t :
  current snap db [i] →
  t_seq <$> tests (visit snap db i) !! t =
  (λ n, n + (Z.of_nat (length (logs_of_test (visit snap db i) t)) -
             Z.of_nat (length (logs_of_test db t))))
    <$> (t_seq <$> tests db !! t).
Proof.
  intros Hcur. unfold logs_of_test.
  rewrite (visit_count (λ l, test_id l = Some t))
    by (done || intros c c' [= _ Hc]; congruence).
  match goal with |- _ = (λ n, n + (?c + ?g - ?c)) <$> ?o =>
    rewrite (fmap_add_ext o (c + g - c) g) by lia end.
  unfold visit. destruct (snap !! i) as [log|] eqn:Hlog;
    [|apply fmap_add_0].
  destruct (decide (log_size log ≤ max_size)) as [Hle|Hbig].
  { rewrite process_log_compliant by done.
    rewrite decide_False by (intros [_ ?]; lia). apply fmap_add_0. }
  rewrite process_log_oversized by lia. simpl.
  destruct (test_id log) as [t0|] eqn:Ht.
  - destruct (decide (t0 = t)) as [->|Hne].
    + rewrite decide_True by (split; [done|lia]).
      rewrite lookup_alter_eq. by destruct (tests db !! t).
    + rewrite decide_False by (intros [[=] _]; done).
      rewrite lookup_alter_ne by done. apply fmap_add_0.
  - rewrite decide_False by (by intros [[=] _]). apply fmap_add_0.
Qed.

Lemma scan_counters snap ids db :
  NoDup ids → current snap db ids →
  (∀ b,
     b_seq <$> builds (scan snap db ids) !! b =
     (λ n, n + (Z.of_nat (length (scope_logs (scan snap db ids) (b, None))) -
                Z.of_nat (length (scope_logs db (b, None)))))
       <$> (b_seq <$> builds db !! b)) ∧
  (∀ t,
     t_seq <$> tests (scan snap db ids) !! t =
     (λ n, n + (Z.of_nat (length (logs_of_test (scan snap db ids) t)) -
                Z.of_nat (length (logs_of_test db t))))
       <$> (t_seq <$> tests db !! t)).
Proof.
  revert db. induction ids as [|i ids IH]; intros db Hnd Hcur.
  { split; intros k; simpl; rewrite Z.sub_diag; apply fmap_add_0. }
  apply NoDup_cons in Hnd as [Hi Hnd]. rewrite scan_cons.
  destruct (IH (visit snap db i) Hnd (visit_current _ _ _ _ Hi Hcur))
    as [IHb IHt].
  apply current_head in Hcur. split.
  - intros b. rewrite IHb, visit_build_counter, fmap_add_add by done.
    apply fmap_add_ext. lia.
  - intros t. rewrite IHt, visit_test_counter, fmap_add_add by done.
    apply fmap_add_ext. lia.
Qed.

(** X9.  Each counter moves with the number of logs it stands for: the
    [seq] of a build grows by the number of logs added to the logs of
    that build that have no test id, and the [seq] of a test by the
    number of logs added to the logs that carry its test id. *)
Theorem counters_follow_log_counts db :
  (∀ b,
     b_seq <$> builds (break_up_large_documents db) !! b =
     (λ n, n + (Z.of_nat (length
                   (scope_logs (break_up_large_documents db) (b, None))) -
                Z.of_nat (length (scope_logs db (b, None)))))
       <$> (b_seq <$> builds db !! b)) ∧
  (∀ t,
     t_seq <$> tests (break_up_large_documents db) !! t =
     (λ n, n + (Z.of_nat (length
                   (logs_of_test (break_up_large_documents db) t)) -
                Z.of_nat (length (logs_of_test db t))))
       <$> (t_seq <$> tests db !! t)).
Proof.
  apply scan_counters; [apply NoDup_find_sorted_ids|apply current_start].
Qed.

Lemma all_logs_size db : length (all_logs db) = size (logs db).
Proof. unfold all_logs. by rewrite length_fmap, length_map_to_list. Qed.

Lemma visit_size snap db i :
  current snap db [i] →
  Z.of_nat (size (logs (visit snap db i))) =
  Z.of_nat (size (logs db)) +
  match snap !! i with
  | Some log => if decide (log_size log > max_size) then split_inc log else 0
  | None => 0
  end.
Proof.
  intros Hcur.
  pose proof (visit_count (λ _, True) ltac:(done) snap db i Hcur) as Hcount.
  rewrite !filter_all, !all_logs_size in Hcount
    by (by apply Forall_forall).
  rewrite Hcount. destruct (snap !! i) as [log|]; [|done].
  destruct (decide (log_size log > max_size)).
  - by rewrite decide_True.
  - by rewrite decide_False by (by intros [_ ?]).
Qed.

Lemma visit_size_mono snap db i :
  current snap db [i] →
  (size (logs db) ≤ size (logs (visit snap db i)))%nat.
Proof.
  intros Hcur. pose proof (visit_size snap db i Hcur) as Hsz.
  destruct (snap !! i) as [log|]; [|lia].
  pose proof (split_inc_nonneg log). destruct (decide _); lia.
Qed.

Lemma scan_size_mono snap ids db :
  NoDup ids → current snap db ids →
  (size (logs db) ≤ size (logs (scan snap db ids)))%nat.
Proof.
  revert db. induction ids as [|i ids IH]; intros db Hnd Hcur; [done|].
  apply NoDup_cons in Hnd as [Hi Hnd]. rewrite scan_cons.
  pose proof (visit_size_mono snap db i (current_head _ _ _ _ Hcur)).
  pose proof (IH (visit snap db i) Hnd (visit_current _ _ _ _ Hi Hcur)).
  lia.
Qed.

Lemma scan_size_strict snap ids db id log :
  NoDup ids → current snap db ids → id ∈ ids → snap !! id = Some log →
  log_size log > max_size →
  (size (logs db) < size (logs (scan snap db ids)))%nat.
Proof.
  revert db. induction ids as [|i ids IH]; intros db Hnd Hcur Hin Hlog Hbig.
  { by apply elem_of_nil in Hin. }
  apply NoDup_cons in Hnd as [Hi Hnd]. rewrite scan_cons.
  pose proof (visit_current snap db i ids Hi Hcur) as Hcur'.
  pose proof (current_head _ _ _ _ Hcur) as Hone.
  destruct (decide (id = i)) as [->|Hne].
  - pose proof (visit_size snap db i Hone) as Hsz. rewrite Hlog in Hsz.
    rewrite decide_True in Hsz by done.
    pose proof (split_inc_pos log Hbig).
    pose proof (scan_size_mono snap ids (visit snap db i) Hnd Hcur'). lia.
  - apply elem_of_cons in Hin as [?|Hin]; [done|].
    pose proof (visit_size_mono snap db i Hone).
    pose proof (IH (visit snap db i) Hnd Hcur' Hin Hlog Hbig). lia.
Qed.

(** X10.  The migration never leaves fewer logs than it found, and it
    leaves as many exactly when no log was larger than [max_size]. *)
Theorem number_of_logs db :
  (size (logs db) ≤ size (logs (break_up_large_documents db)))%nat ∧
  (size (logs (break_up_large_documents db)) = size (logs db) ↔
   ∀ id log, logs db !! id = Some log → log_size log ≤ max_size).
Proof.
  split.
  { apply scan_size_mono; [apply NoDup_find_sorted_ids|apply current_start]. }
  split.
  - intros Hsame id log Hlog.
    destruct (decide (log_size log ≤ max_size)) as [|Hbig]; [done|].
    pose proof (scan_size_strict (logs db) (Store.find_sorted_ids (logs db))
                  db id log (NoDup_find_sorted_ids _) (current_start _ _))
      as Hlt.
    unfold break_up_large_documents, run_scan in Hsame.
    rewrite Hsame in Hlt.
    exfalso. apply (Nat.lt_irrefl (size (logs db))). apply Hlt; [|done|lia].
    apply elem_of_find_sorted_ids. eauto.
  - intros Hall. unfold break_up_large_documents.
    by rewrite run_scan_compliant.
Qed.

(** ** What the scan prints *)

Lemma filter_ext_in {A} (P Q : A → Prop)
    `{!∀ x, Decision (P x)} `{!∀ x, Decision (Q x)} (l : list A) :
  (∀ x, x ∈ l → P x ↔ Q x) → filter P l = filter Q l.
Proof.
  induction l as [|x l IH]; intros Hext; [done|].
  rewrite !filter_cons, IH by (intros y Hy; apply Hext; by right).
  assert (P x ↔ Q x) as Hx by (apply Hext; by left).
  destruct (decide (P x)) as [HP|HP], (decide (Q x)) as [HQ|HQ];
    try done; by rewrite Hx in HP.
Qed.

Lemma reports_app out1 out2 :
  reports (out1 ++ out2) = reports out1 ++ reports out2.
Proof. apply filter_app. Qed.

Lemma reports_turn i id log :
  reports (turn_output i id log) =
  if decide (log_size log > max_size) then report id log else [].
Proof.
  unfold turn_output. rewrite reports_app.
  assert (reports (if bool_decide (i mod 10000 = 0) && bool_decide (i > 0)
                   then [Checked i id] else []) = []) as ->.
  { by destruct (_ && _). }
  simpl. case_bool_decide.
  - by rewrite decide_False by lia.
  - rewrite decide_True by lia. unfold report.
    by destruct (test_id log).
Qed.

Lemma scan_output_reports db ids i :
  (∀ j, j ∈ ids → is_Some (logs db !! j)) →
  reports (scan_output (logs db) i ids) =
  concat ((λ j, from_option (report j) [] (logs db !! j)) <$>
          filter (λ j, size_at db j > max_size) ids).
Proof.
  revert i. induction ids as [|j ids IH]; intros i Hdom; [done|].
  simpl. destruct (Hdom j) as [log Hlog]; [by left|]. rewrite Hlog.
  rewrite reports_app, reports_turn, IH
    by (intros j' Hj'; apply Hdom; by right).
  rewrite filter_cons.
  assert (size_at db j = log_size log) as ->
    by (unfold size_at; by rewrite Hlog).
  destruct (decide (log_size log > max_size)); simpl; [|done].
  by rewrite Hlog.
Qed.

(** X11.  Apart from the progress messages, the scan prints one report
    for each log of the initial store that is larger than [max_size], in
    ascending order of identity and nothing else: the heading, the
    identity of the log, its build id and, if it has one, its test id. *)
Theorem reports_are_the_oversized_logs db :
  reports (printed db) =
  concat ((λ j, from_option (report j) [] (logs db !! j)) <$>
          filter (λ j, size_at db j > max_size)
                 (Store.find_sorted_ids (logs db))).
Proof.
  apply scan_output_reports. intros j. by rewrite elem_of_find_sorted_ids.
Qed.

Lemma elem_of_turn_output_checked i0 id log i j :
  Checked i j ∈ turn_output i0 id log ↔
  i = i0 ∧ j = id ∧ 0 < i0 ∧ i0 mod 10000 = 0.
Proof.
  unfold turn_output. rewrite elem_of_app.
  assert (Checked i j ∉
            (if bool_decide (log_size log ≤ max_size) then []
             else report id log)) as Hrep.
  { case_bool_decide; [by intros ?%elem_of_nil|].
    unfold report. destruct (test_id log);
      intros Hin; simpl in Hin; repeat (apply elem_of_cons in Hin as [?|Hin]);
      try done; by apply elem_of_nil in Hin. }
  split.
  - intros [Hin|Hin]; [|done].
    destruct (bool_decide (i0 mod 10000 = 0)) eqn:H1,
             (bool_decide (i0 > 0)) eqn:H2; simpl in Hin;
      try by apply elem_of_nil in Hin.
    apply bool_decide_eq_true in H1, H2.
    apply list_elem_of_singleton in Hin. simplify_eq. repeat split; lia.
  - intros (-> & -> & Hpos & Hmod). left.
    rewrite !bool_decide_eq_true_2 by lia. simpl. by left.
Qed.

Lemma scan_output_checked db ids i0 i j :
  (∀ j, j ∈ ids → is_Some (logs db !! j)) →
  Checked i j ∈ scan_output (logs db) i0 ids ↔
  ∃ k : nat, ids !! k = Some j ∧ i = i0 + Z.of_nat k ∧
             0 < i ∧ i mod 10000 = 0.
Proof.
  revert i0. induction ids as [|j0 ids IH]; intros i0 Hdom.
  { simpl. split; [by intros ?%elem_of_nil|by intros (k & ? & _)]. }
  simpl. destruct (Hdom j0) as [log Hlog]; [by left|]. rewrite Hlog.
  rewrite elem_of_app, elem_of_turn_output_checked.
  rewrite IH by (intros j' Hj'; apply Hdom; by right).
  split.
  - intros [(-> & -> & Hpos & Hmod)|(k & Hk & -> & Hpos & Hmod)].
    + exists 0%nat. simpl. rewrite Z.add_0_r. done.
    + exists (S k). simpl. split; [done|].
      replace (i0 + Z.of_nat (S k)) with (i0 + 1 + Z.of_nat k) by lia. done.
  - intros ([|k] & Hk & -> & Hpos & Hmod); simpl in Hk.
    + left. simplify_eq. rewrite Z.add_0_r in *. done.
    + right. exists k. split; [done|].
      replace (i0 + 1 + Z.of_nat k) with (i0 + Z.of_nat (S k)) by lia. done.
Qed.

(** X12.  A progress message is printed for the log in position [i] of
    the scan (counting from 0) exactly when [i] is a positive multiple of
    10000, and it shows [i] and the identity of that log; a store of at
    most 10000 logs gets none. *)
Theorem progress_messages db :
  (∀ i j,
     Checked i j ∈ printed db ↔
     0 < i ∧ i mod 10000 = 0 ∧
     Store.find_sorted_ids (logs db) !! Z.to_nat i = Some j) ∧
  (Z.of_nat (size (logs db)) ≤ 10000 → ∀ i j, Checked i j ∉ printed db).
Proof.
  assert (∀ i j,
     Checked i j ∈ printed db ↔
     0 < i ∧ i mod 10000 = 0 ∧
     Store.find_sorted_ids (logs db) !! Z.to_nat i = Some j) as Hiff.
  { intros i j. unfold printed. rewrite scan_output_checked.
    - split.
      + intros (k & Hk & -> & Hpos & Hmod). rewrite Z.add_0_l in *.
        by rewrite Nat2Z.id.
      + intros (Hpos & Hmod & Hk). exists (Z.to_nat i).
        rewrite Z.add_0_l, Z2Nat.id by lia. done.
    - intros j'. by rewrite elem_of_find_sorted_ids. }
  split; [done|].
  intros Hsmall i j (Hpos & Hmod & Hk)%Hiff.
  apply lookup_lt_Some in Hk.
  rewrite (Permutation_length (find_sorted_ids_perm (logs db))) in Hk.
  rewrite length_fmap, length_map_to_list in Hk.
  assert (10000 ≤ i) by (clear -Hpos Hmod; Z.div_mod_to_equations; lia).
  lia.
Qed.

Lemma progress_messages_witness :
  Z.of_nat (size (logs Samples.double_db)) ≤ 10000 ∧
  ∀ i j, Checked i j ∉ printed Samples.double_db.
Proof.
  assert (Z.of_nat (size (logs Samples.double_db)) ≤ 10000) as H
    by (by vm_compute).
  split; [exact H|].
  exact (proj2 (progress_messages Samples.double_db) H).
Defined.

(** ** The checks of the self-test *)

Lemma check_logs_cons who log found n :
  SelfTest.check_logs who (log :: found) n = None ↔
  accepted_at n log ∧ SelfTest.check_logs who found (n + 1) = None.
Proof.
  unfold accepted_at. simpl.
  case_bool_decide as Hseq; [by split; [|intros [[? _] _]]|].
  try apply dec_stable in Hseq.
  destruct (Fixture.dates !! Z.to_nat (n - 1)) as [d|];
    [|by split; [|intros [(_ & ? & _) _]]].
  case_bool_decide as Hdate.
  { split; [done|]. intros [(_ & [= ->] & _) _]. done. }
  try apply dec_stable in Hdate.
  case_bool_decide as Hlen.
  { split; [done|]. intros [(_ & _ & l & c & Hl & _) _].
    by rewrite Hl in Hlen. }
  try apply dec_stable in Hlen.
  destruct (lines log) as [|l [|l' ls]] eqn:Hlines; try done. simpl.
  destruct (first_char (line_text l)) as [c|] eqn:Hc.
  - case_bool_decide as Hchar.
    + split; [done|]. intros [(_ & _ & l0 & c0 & [= <-] & Hc0 & Hp) _].
      congruence.
    + try apply dec_stable in Hchar. split.
      * intros Hrest. split; [|done]. repeat split; [done|by rewrite Hdate|].
        by exists l, c.
      * by intros [_ ?].
  - split; [done|]. intros [(_ & _ & l0 & c0 & [= <-] & Hc0 & _) _].
    congruence.
Qed.

Lemma check_logs_spec who found n :
  SelfTest.check_logs who found n = None ↔
  ∀ (k : nat) log, found !! k = Some log → accepted_at (n + Z.of_nat k) log.
Proof.
  revert n. induction found as [|log found IH]; intros n.
  { split; [by intros _ k log ?|done]. }
  rewrite check_logs_cons, IH. split.
  - intros [Hlog Hrest] [|k] log' Hk; simpl in Hk.
    + simplify_eq. by rewrite Z.add_0_r.
    + replace (n + Z.of_nat (S k)) with (n + 1 + Z.of_nat k) by lia.
      by apply Hrest.
  - intros Hall. split.
    + rewrite <- (Z.add_0_r n). by apply (Hall 0%nat).
    + intros k log' Hk.
      replace (n + 1 + Z.of_nat k) with (n + Z.of_nat (S k)) by lia.
      by apply Hall.
Qed.

(** X13.  A loop of the self-test runs through without a complaint
    exactly when the logs it is given are, one after the other, the log
    with [seq] 1, 2, ..., each started on the date of the same position
    in [dates], each with exactly one line, and that line beginning with
    the digit that is its [seq]. *)
Theorem self_test_loop who (found : list Log) :
  SelfTest.check_logs who found 1 = None ↔
  ∀ (k : nat) log,
    found !! k = Some log →
    seq log = 1 + Z.of_nat k ∧
    Fixture.dates !! k = Some (started log) ∧
    ∃ l c, lines log = [l] ∧ first_char (line_text l) = Some c ∧
           String c EmptyString = pretty (1 + Z.of_nat k).
Proof.
  rewrite check_logs_spec. unfold accepted_at.
  split; intros Hall k log Hk; specialize (Hall k log Hk);
    replace (Z.to_nat (1 + Z.of_nat k - 1)) with k in * by lia; done.
Qed.

(** X14.  What a loop of the self-test accepts has at most four logs, and
    every beginning of it, down to no log at all, is accepted too: the
    loop does not count the logs. *)
Theorem self_test_loop_prefixes who (found : list Log) :
  SelfTest.check_logs who found 1 = None →
  (length found ≤ 4)%nat ∧
  ∀ k, SelfTest.check_logs who (take k found) 1 = None.
Proof.
  rewrite check_logs_spec. intros Hall. split.
  - destruct (decide (length found ≤ 4)%nat) as [|Hlong]; [done|].
    destruct (lookup_lt_is_Some_2 found 4) as [log Hlog]; [lia|].
    destruct (Hall 4%nat log Hlog) as (_ & Hdate & _).
    by vm_compute in Hdate.
  - intros k. apply check_logs_spec. intros i log Hi.
    apply lookup_take_Some in Hi as [Hi _]. by apply Hall.
Qed.

Lemma self_test_loop_prefixes_witness :
  SelfTest.check_logs SelfTest.GlobalLog [MoreSamples.accepted_log] 1 = None ∧
  (length [MoreSamples.accepted_log] ≤ 4)%nat ∧
  ∀ k, SelfTest.check_logs SelfTest.GlobalLog
         (take k [MoreSamples.accepted_log]) 1 = None.
Proof.
  assert (SelfTest.check_logs SelfTest.GlobalLog
            [MoreSamples.accepted_log] 1 = None) as H by (by vm_compute).
  split; [exact H|].
  exact (self_test_loop_prefixes _ _ H).
Defined.

(** A loop that stops early stops with a complaint. *)
Lemma check_logs_complains who found n :
  SelfTest.check_logs who found n ≠ Some SelfTest.AllTestsPassed.
Proof.
  revert n. induction found as [|log found IH]; intros n; [done|]. simpl.
  repeat (case_bool_decide; [done|]).
  destruct (Fixture.dates !! Z.to_nat (n - 1)); [|done].
  repeat (case_bool_decide; [done|]).
  destruct (first_char <$> (line_text <$> head (lines log))) as [[c|]|];
    try done.
  case_bool_decide; [done|]. apply IH.
Qed.

Lemma scope_logs_sorted_without_logs db sc :
  scope_logs_sorted (without_logs db) sc = [].
Proof.
  unfold scope_logs_sorted, scope_logs, all_logs, without_logs. simpl.
  by rewrite map_to_list_empty.
Qed.

(** X15.  The self-test does not notice missing logs: a store on which
    its checks pass still passes them after all its logs have been
    removed. *)
Theorem self_test_ignores_missing_logs db :
  SelfTest.check db = SelfTest.AllTestsPassed →
  SelfTest.check (without_logs db) = SelfTest.AllTestsPassed.
Proof.
  unfold SelfTest.check. rewrite !scope_logs_sorted_without_logs.
  change (builds (without_logs db)) with (builds db).
  change (tests (without_logs db)) with (tests db). simpl.
  destruct (builds db !! Fixture.global_build_id) as [gb|]; [|done].
  case_bool_decide; [done|].
  destruct (SelfTest.check_logs _ _ _) as [out|] eqn:Hglobal.
  { intros ->. by apply check_logs_complains in Hglobal. }
  destruct (builds db !! Fixture.plain_build_id) as [b|]; [|done].
  destruct (tests db !! Fixture.test_doc_id) as [t|]; [|done].
  by repeat (case_bool_decide; [done|]).
Qed.

Lemma self_test_ignores_missing_logs_witness :
  SelfTest.check (break_up_large_documents (Fixture.db0 Fixture.clock))
  = SelfTest.AllTestsPassed ∧
  SelfTest.check
    (without_logs (break_up_large_documents (Fixture.db0 Fixture.clock)))
  = SelfTest.AllTestsPassed.
Proof.
  assert (SelfTest.check
            (break_up_large_documents (Fixture.db0 Fixture.clock))
          = SelfTest.AllTestsPassed) as H by (by vm_compute).
  split; [exact H|].
  exact (self_test_ignores_missing_logs _ H).
Defined.

(** ** Empty replacements *)

Lemma split_line_head_nonempty log st l :
  (∃ c, head (new_logs_of st) = Some c ∧ lines c ≠ []) →
  ∃ c, head (new_logs_of (split_line log st l)) = Some c ∧ lines c ≠ [].
Proof.
  intros (c & Hhead & Hc). unfold split_line, new_logs_of in *.
  destruct (st_closed st) as [|c0 cs] eqn:Hclosed; simpl in *.
  - simplify_eq. destruct (opens_new_log st l); simpl.
    + rewrite Hclosed. simpl. eauto.
    + rewrite Hclosed. simpl. eexists. split; [done|].
      simpl. by destruct (lines (st_new_log st)).
  - simplify_eq. destruct (opens_new_log st l); simpl;
      rewrite Hclosed; simpl; eauto.
Qed.

Lemma split_lines_head_nonempty log st ls :
  (∃ c, head (new_logs_of st) = Some c ∧ lines c ≠ []) →
  ∃ c, head (new_logs_of (foldl (split_line log) st ls)) = Some c ∧
       lines c ≠ [].
Proof.
  revert st. induction ls as [|l ls IH]; intros st Hst; [done|].
  simpl. by apply IH, split_line_head_nonempty.
Qed.

(** X16.  If the first line of a log is of at most [max_size], no
    replacement of the log is empty. *)
Theorem no_empty_replacement (log : Log) (l : Line) (rest : list Line) :
  lines log = l :: rest → len (line_text l) ≤ max_size →
  Forall (λ c, lines c ≠ []) (new_logs log).
Proof.
  intros Hl Hfit.
  assert (∃ c, head (new_logs log) = Some c ∧ lines c ≠ [])
    as (c & Hhead & Hc).
  { unfold new_logs, split_log. rewrite Hl. simpl.
    apply split_lines_head_nonempty.
    unfold split_line, opens_new_log, new_logs_of. simpl.
    rewrite bool_decide_eq_false_2 by lia. simpl. eauto. }
  pose proof (new_logs_tail log) as Htail.
  destruct (new_logs log) as [|c0 cs]; simpl in *; [done|].
  simplify_eq. by constructor.
Qed.

Lemma no_empty_replacement_witness :
  lines Samples.double_log = Samples.line3 "a" :: [Samples.line3 "b"] ∧
  len (line_text (Samples.line3 "a")) ≤ max_size ∧
  Forall (λ c, lines c ≠ []) (new_logs Samples.double_log).
Proof.
  assert (len (line_text (Samples.line3 "a")) ≤ max_size) as H
    by (by vm_compute).
  split; [reflexivity|]. split; [exact H|].
  exact (no_empty_replacement Samples.double_log _ _ eq_refl H).
Defined.

(** ** Lines and [seq] values of a scope *)

(** X17.  The lines of the replacements of a log, taken in the order of
    their [seq] values, are the lines of the log, none moved, repeated,
    lost or changed; the [seq] values are those from the [seq] of the
    copy that is split onwards, one after the other. *)
Theorem replacements_keep_lines (log : Log) :
  concat (lines <$> new_logs log) = lines log ∧
  seq <$> new_logs log =
  seqZ (seq log) (Z.of_nat (length (new_logs log))).
Proof.
  split; [apply new_logs_concat|].
  by rewrite new_logs_seqs, new_logs_length.
Qed.

(** X18.  When the log that is split is the log as the store holds it,
    not an outdated copy, the split keeps the [seq] values of every scope
    at exactly [1 .. N] under the counter [N] of its owner, keeps them
    distinct, and keeps the lines of every scope in [seq] order. *)
Theorem split_of_stored_log_keeps_scopes db id log :
  logs db !! id = Some log →
  ((∀ sc, contiguous db sc) →
   ∀ sc, contiguous (process_log db id log) sc) ∧
  ((∀ sc, distinct_seqs db sc) →
   ∀ sc, distinct_seqs (process_log db id log) sc ∧
         scope_lines (process_log db id log) sc = scope_lines db sc).
Proof.
  intros Hlog. split.
  - by apply process_log_contiguous.
  - intros Hall sc. split.
    + by apply process_log_distinct_seqs.
    + by apply process_log_scope_lines.
Qed.

Lemma split_of_stored_log_keeps_scopes_witness :
  logs Samples.double_db !! 1%N = Some Samples.double_log ∧
  (∀ sc, contiguous Samples.double_db sc) ∧
  ∀ sc, contiguous
          (process_log Samples.double_db 1%N Samples.double_log) sc.
Proof.
  assert (logs Samples.double_db !! 1%N = Some Samples.double_log) as H1
    by (by vm_compute).
  assert (∀ sc, contiguous Samples.double_db sc) as H2.
  { apply contiguous_known, (bool_decide_unpack _). vm_compute. reflexivity. }
  split; [exact H1|]. split; [exact H2|].
  exact (proj1 (split_of_stored_log_keeps_scopes _ _ _ H1) H2).
Defined.

(** A scan in which every oversized copy is the log the store holds, no
    two of them in one scope, is a sequence of splits of stored logs. *)
Lemma scan_of_stored_logs (P : DB → Prop) snap ids db :
  NoDup ids →
  (∀ i j li lj,
     i ∈ ids → j ∈ ids → snap !! i = Some li → snap !! j = Some lj →
     log_size li > max_size → log_size lj > max_size →
     scope_of li = scope_of lj → i = j) →
  (∀ i log,
     i ∈ ids → snap !! i = Some log → log_size log > max_size →
     logs db !! i = Some log) →
  (∀ d i log, logs d !! i = Some log → P d → P (process_log d i log)) →
  P db → P (scan snap db ids).
Proof.
  intros Hnd Hlone Hexact Hstep. revert db Hnd Hlone Hexact.
  induction ids as [|i ids IH]; intros db Hnd Hlone Hexact HP; [done|].
  apply NoDup_cons in Hnd as [Hi Hnd]. rewrite scan_cons.
  apply IH; [done| | |].
  - intros j1 j2 l1 l2 Hj1 Hj2. apply Hlone; by right.
  - intros j lj Hj Hlj Hbigj.
    assert (logs db !! j = Some lj) as Hstored
      by (apply Hexact; [by right|done..]).
    unfold visit. destruct (snap !! i) as [log|] eqn:Hlog; [|done].
    destruct (decide (log_size log ≤ max_size)) as [Hle|Hbig].
    { by rewrite process_log_compliant. }
    rewrite (process_log_lookup_old db i log ltac:(lia) j lj);
      [|by intros ->|done].
    f_equal. apply shift_log_other_scope. intros Hsc. apply Hi.
    assert (j = i) as <-; [|done].
    apply (Hlone j i lj log); [by right|by left|done..|lia|done].
  - unfold visit. destruct (snap !! i) as [log|] eqn:Hlog; [|done].
    destruct (decide (log_size log ≤ max_size)) as [Hle|Hbig].
    { by rewrite process_log_compliant. }
    apply Hstep; [|done]. apply Hexact; [by left|done|lia].
Qed.

Lemma migration_of_stored_logs (P : DB → Prop) db :
  lone_oversized db →
  (∀ d i log, logs d !! i = Some log → P d → P (process_log d i log)) →
  P db → P (break_up_large_documents db).
Proof.
  intros Hlone Hstep HP. unfold break_up_large_documents, run_scan.
  apply scan_of_stored_logs; [apply NoDup_find_sorted_ids| |done..].
  intros i j li lj _ _ Hi Hj. by apply (Hlone i li Hi j lj Hj).
Qed.

(** X19.  In a store where no scope holds two logs larger than
    [max_size], the migration keeps the [seq] values of every scope at
    exactly [1 .. N] under the counter [N] of its owner, which is then
    the number of logs of the scope, and it keeps the lines of every
    scope in [seq] order. *)
Theorem migration_with_lone_oversized_logs db :
  lone_oversized db →
  ((∀ sc, contiguous db sc) →
   ∀ sc,
     contiguous (break_up_large_documents db) sc ∧
     ∀ n, owner_counter (break_up_large_documents db) sc = Some n →
          n = Z.of_nat (length (scope_logs (break_up_large_documents db) sc)))
  ∧
  ((∀ sc, NoDup (seq <$> scope_logs db sc)) →
   ∀ sc, scope_lines (break_up_large_documents db) sc = scope_lines db sc).
Proof.
  intros Hlone. split.
  - intros Hall.
    assert (∀ sc, contiguous (break_up_large_documents db) sc) as Hc.
    { apply (migration_of_stored_logs (λ d, ∀ sc, contiguous d sc));
        [done| |done].
      intros d i log Hlog Hd. by apply process_log_contiguous. }
    intros sc. split; [done|]. intros n. by apply contiguous_count.
  - intros Hall.
    apply (migration_of_stored_logs
             (λ d, (∀ sc, distinct_seqs d sc) ∧
                   ∀ sc, scope_lines d sc = scope_lines db sc));
      [done| |done].
    intros d i log Hlog [Hd Hsame]. split.
    + by apply process_log_distinct_seqs.
    + intros sc. rewrite <- Hsame. by apply process_log_scope_lines.
Qed.

Lemma migration_with_lone_oversized_logs_witness :
  lone_oversized (Fixture.db0 Fixture.clock) ∧
  (∀ sc, contiguous (Fixture.db0 Fixture.clock) sc) ∧
  (∀ sc,
     contiguous (break_up_large_documents (Fixture.db0 Fixture.clock)) sc) ∧
  ∀ sc,
    scope_lines (break_up_large_documents (Fixture.db0 Fixture.clock)) sc =
    scope_lines (Fixture.db0 Fixture.clock) sc.
Proof.
  assert (lone_oversized (Fixture.db0 Fixture.clock)) as H1.
  { apply (bool_decide_unpack _). by vm_compute. }
  assert (∀ sc, contiguous (Fixture.db0 Fixture.clock) sc) as H2.
  { apply contiguous_known, (bool_decide_unpack _). vm_compute. reflexivity. }
  destruct (migration_with_lone_oversized_logs _ H1) as [Hc Hl].
  split; [exact H1|]. split; [exact H2|]. split.
  - intros sc. exact (proj1 (Hc H2 sc)).
  - apply Hl. intros sc. by apply contiguous_NoDup.
Defined.
